(** * pgoptionfiles: the ptrace tracer of [src/pgoptionfiles.c]

    A shallow embedding of pgoptionfiles: the word-at-a-time string
    reader [pgoptionfiles_copy_from_tracee], the monitor loop
    [pgoptionfiles_tracer], the tracee and [main], with the kernel
    interface (ptrace, waitpid, kill) made explicit.

    - C strings are lists of characters; the terminating NUL is implicit,
      except in the raw bytes that the reader stores into its destination.
    - The tracer gets its two lists as pointers and appends to them as
      strings; the sizes of the arrays behind them belong to the caller.
      [fits] says that a string has room in an array, and [main], which
      declares the arrays, ends in [Overrun] when the error list has
      not.
    - The tracee is an input: every loop iteration consumes one
      [tracee_event], which says how [PTRACE_SYSCALL] and [waitpid]
      answered and what the registers and the memory of the stopped
      tracee are.
    - Every call that inspects or changes the tracee is logged, in order,
      in the [calls] field of the tracer's state.  There is one tracee,
      so the [pid] argument is left out. *)

From Stdlib Require Import ZArith Ascii String Lia.
From stdpp Require Import base list strings.

Local Open Scope Z_scope.

(** Closes an equation between closed terms by evaluation. *)
Ltac evaluate := vm_compute; reflexivity.

(** ** C strings *)

Abbreviation cstring := (list ascii).

(** A string literal of the source. *)
Definition lit (s : string) : cstring := list_ascii_of_string s.

(** The C string held by a buffer: the bytes before the first NUL. *)
Fixpoint c_str (buf : list ascii) : cstring :=
  match buf with
  | [] => []
  | c :: buf' => if Ascii.eqb c zero then [] else c :: c_str buf'
  end.

Definition strlen (s : cstring) : Z := Z.of_nat (length s).

(** [strcat(dst, src)]: the string left in [dst].  strcat does not look at
    the size of the array that holds [dst]: what it leaves there is this
    string only when the array has room for it, see [fits]. *)
Definition strcat (dst src : cstring) : cstring := dst ++ src.

(** The string [s] and its terminating NUL have room in an array of [size]
    bytes.  Where a string that the tracer builds with strcat or sprintf
    does not fit the array of its caller, the bytes go past the end of
    the array and the C program has no defined behaviour. *)
Definition fits (size : Z) (s : cstring) : bool := strlen s <? size.

(** Line 134 of [main]: [char error_list[4096]]. *)
Definition error_list_size : Z := 4096.

Fixpoint starts_with (needle haystack : cstring) : bool :=
  match needle, haystack with
  | [], _ => true
  | _ :: _, [] => false
  | a :: needle', b :: haystack' => Ascii.eqb a b && starts_with needle' haystack'
  end.

(** [strstr(haystack, needle)]: the offset of the first occurrence, [None]
    for the NULL result. *)
Fixpoint strstr (haystack needle : cstring) : option nat :=
  if starts_with needle haystack then Some O
  else match haystack with
       | [] => None
       | _ :: haystack' => S <$> strstr haystack' needle
       end.

(** [strncmp(s1, s2, n) == 0] on C strings. *)
Definition strncmp_is_0 (s1 s2 : cstring) (n : nat) : bool :=
  bool_decide (take n s1 = take n s2).

(** The conversion [%x] of printf, for an [int] argument. *)
Definition hex_digit (d : Z) : ascii :=
  if d <? 10 then ascii_of_N (Z.to_N (48 + d)) else ascii_of_N (Z.to_N (87 + d)).

Fixpoint hex_digits (fuel : nat) (z : Z) (acc : cstring) : cstring :=
  match fuel with
  | O => acc
  | S fuel' =>
      let acc' := hex_digit (z mod 16) :: acc in
      if z / 16 =? 0 then acc' else hex_digits fuel' (z / 16) acc'
  end.

Definition printf_x (i : Z) : cstring := hex_digits 8 (i mod 2 ^ 32) [].

(** ** The kernel interface *)

(** The fields of [struct user_regs_struct] that the tracer uses, each an
    unsigned 64-bit value. *)
Record user_regs_struct := {
  orig_rax : Z;
  rdi : Z;
  rsi : Z
}.

(** The memory of the stopped tracee: the byte at an address, [None]
    where nothing is mapped. *)
Definition tracee_memory := Z -> option ascii.

Definition wrap64 (z : Z) : Z := z mod 2 ^ 64.

(** The [n] bytes from [addr] on as a little-endian integer, [None] when
    one of them is not mapped. *)
Fixpoint peek_bytes (mem : tracee_memory) (addr : Z) (n : nat) : option Z :=
  match n with
  | O => Some 0
  | S n' =>
      match mem addr, peek_bytes mem (wrap64 (addr + 1)) n' with
      | Some b, Some w => Some (Z.lor (Z.of_N (N_of_ascii b)) (Z.shiftl w 8))
      | _, _ => None
      end
  end.

(** [ptrace(PTRACE_PEEKDATA, pid, addr, NULL)] with [sizeof(size_t) = 8];
    [None] stands for [errno != 0]. *)
Definition PTRACE_PEEKDATA (mem : tracee_memory) (addr : Z) : option Z :=
  peek_bytes mem addr 8.

(** [*((uint8_t * )&word + src_word_offset)] *)
Definition word_byte (word : Z) (src_word_offset : Z) : ascii :=
  ascii_of_N (Z.to_N (Z.land (Z.shiftr word (8 * src_word_offset)) 255)).

(** The macros of <sys/wait.h> and the signal numbers of <signal.h>. *)
Definition WIFEXITED (status : Z) : bool := Z.land status 127 =? 0.
Definition WIFSTOPPED (status : Z) : bool := Z.land status 255 =? 127.
Definition WSTOPSIG (status : Z) : Z := Z.shiftr (Z.land status 65280) 8.
Definition SIGKILL : Z := 9.
Definition SIGTERM : Z := 15.
Definition SIGSTOP : Z := 19.

Definition SYSCALL_OPEN : Z := 2.
Definition SYSCALL_STAT : Z := 4.
Definition SYSCALL_LSTAT : Z := 6.
Definition SYSCALL_ACCESS : Z := 21.
Definition SYSCALL_OPENAT : Z := 257.

(** The calls made on the tracee.  [waitpid] is one wait for the tracee:
    the call of line 267 or of line 278, or, in a build with the timeout
    loop, the polls of lines 270-275 taken together, of which only the
    last result is looked at after the loop. *)
Inductive call :=
| ptrace_SYSCALL
| ptrace_GETREGS
| ptrace_PEEKDATA (addr : Z)
| ptrace_SETREGS (regs : user_regs_struct)
| waitpid
| kill (sig : Z).

(** What the tracee and the kernel answer during one iteration of the
    monitor loop. *)
Record tracee_event := {
  ptrace_syscall_result : Z;   (* the return value of PTRACE_SYSCALL *)
  waitpid_result : Z;          (* the return value of waitpid; with the
                                  timeout loop of lines 270-275, which is
                                  logged as one call, of its last waitpid *)
  wstatus : Z;                 (* the status that a successful waitpid stores;
                                  after a timeout, the value of [status]
                                  when the waitpid of line 278 is back *)
  registers : user_regs_struct;(* the registers of the stopped tracee *)
  memory : tracee_memory       (* the memory of the stopped tracee *)
}.

(** The variables of [pgoptionfiles_tracer] that live across iterations. *)
Record tracer_state := {
  file_names_list : cstring;
  error_list : cstring;
  retcode : Z;
  status : Z;
  calls : list call
}.

Inductive control :=
| Continue (st : tracer_state)
| Break (st : tracer_state).

Definition set_retcode (r : Z) (st : tracer_state) : tracer_state :=
  {| file_names_list := file_names_list st; error_list := error_list st;
     retcode := r; status := status st; calls := calls st |}.

Definition set_status (s : Z) (st : tracer_state) : tracer_state :=
  {| file_names_list := file_names_list st; error_list := error_list st;
     retcode := retcode st; status := s; calls := calls st |}.

Definition set_error_list (e : cstring) (st : tracer_state) : tracer_state :=
  {| file_names_list := file_names_list st; error_list := e;
     retcode := retcode st; status := status st; calls := calls st |}.

Definition set_file_names_list (l : cstring) (st : tracer_state) : tracer_state :=
  {| file_names_list := l; error_list := error_list st;
     retcode := retcode st; status := status st; calls := calls st |}.

Definition called (cs : list call) (st : tracer_state) : tracer_state :=
  {| file_names_list := file_names_list st; error_list := error_list st;
     retcode := retcode st; status := status st; calls := calls st ++ cs |}.

(** What [pgoptionfiles_copy_from_tracee] leaves behind: the bytes it
    stored at [dest[0]], [dest[1]], ..., the value it returns and the
    addresses it read with PTRACE_PEEKDATA. *)
Record copied := {
  stored : list ascii;
  copy_result : Z;
  peeked : list Z
}.

(** ** The memory as the reader sees it *)

(** The [n] bytes of the tracee's memory from [src] on. *)
Definition memory_bytes (mem : tracee_memory) (src : Z) (n : nat)
    : list (option ascii) :=
  (λ i : nat, mem (wrap64 (src + Z.of_nat i))) <$> seq 0 n.

(** The addresses of the first [n] words from [src] on. *)
Definition word_addresses (src : Z) (n : nat) : list Z :=
  (λ k : nat, wrap64 (src + 8 * Z.of_nat k)) <$> seq 0 n.

(** ** Reading the log of calls *)

(** The registers written with PTRACE_SETREGS, in the order of the calls. *)
Definition register_writes_of (cs : list call) : list user_regs_struct :=
  omap (λ c, match c with ptrace_SETREGS regs => Some regs | _ => None end) cs.

(** The signals sent with kill, in the order of the calls. *)
Definition signals_of (cs : list call) : list Z :=
  omap (λ c, match c with kill sig => Some sig | _ => None end) cs.

(** ** The tracee process *)

Definition EXIT_SUCCESS : Z := 0.
Definition EXIT_FAILURE : Z := 1.

(** The calls of the tracee that the outside can see. *)
Inductive tracee_call :=
  | tracee_ptrace_TRACEME
  | tracee_raise (sig : Z)
  | tracee_dlopen (file : cstring)
  | tracee_dlsym (symbol : cstring)
  | tracee_mysql_init
  | tracee_mysql_options
  | tracee_mysql_real_connect
  | tracee_fopen (path : cstring)
  | tracee_access (path : cstring).

(** What the system and the library answer to the tracee.  Pointers are
    numbers, 0 is NULL. *)
Record library_answers := {
  raise_result : Z;
  dlopen_handle : Z;
  dlerror_mysql_init : Z;
  dlerror_mysql_options : Z;
  dlerror_mysql_real_connect : Z;
  mysql_init_result : Z;
  mysql_options_result : Z;
  mysql_real_connect_result : Z;
  fopen_result : cstring → Z;
  access_result : cstring → Z }.

(** How a process ends: what it has written to stdout, the value passed
    to [exit] or returned by [main], and the calls above that it made. *)
Record process_end := {
  stdout : cstring;
  exit_code : Z;
  tracee_calls : list tracee_call }.

(** How [main] ends.  [Overrun]: the tracer has written past the end of
    the array [error_list] of [main]; what the C program does from there
    on is not defined. *)
Inductive main_end :=
| Ended (e : process_end)
| Overrun.

(** ** Sample tracees *)

(** A memory that holds the string [s] at [base], followed by sixteen NUL
    bytes, and nothing else. *)
Definition memory_holding (base : Z) (s : string) : tracee_memory :=
  fun addr =>
    if (base <=? addr) && (addr <? base + Z.of_nat (String.length s) + 16)
    then Some (nth (Z.to_nat (addr - base)) (list_ascii_of_string s) zero)
    else None.

(** The stop of a tracee that raised SIGSTOP: status 0x137f. *)
Definition sigstop_event : tracee_event :=
  {| ptrace_syscall_result := 0; waitpid_result := 1; wstatus := 4991;
     registers := {| orig_rax := 0; rdi := 0; rsi := 0 |};
     memory := fun _ => None |}.

(** A syscall stop (SIGTRAP, status 0x57f) for the syscall [nr], with the
    first two argument registers at [arg0] and [arg1] and the string [s]
    at [base]. *)
Definition syscall_event (nr arg0 arg1 base : Z) (s : string) : tracee_event :=
  {| ptrace_syscall_result := 0; waitpid_result := 1; wstatus := 1407;
     registers := {| orig_rax := nr; rdi := arg0; rsi := arg1 |};
     memory := memory_holding base s |}.

(** A syscall stop like [syscall_event], where the memory holds at [base]
    the string [s], then [n] times the character [c], then sixteen NUL
    bytes, and nothing else. *)
Definition long_path_event (nr arg0 arg1 base : Z) (s : string) (n : Z) (c : ascii)
    : tracee_event :=
  {| ptrace_syscall_result := 0; waitpid_result := 1; wstatus := 1407;
     registers := {| orig_rax := nr; rdi := arg0; rsi := arg1 |};
     memory := fun addr =>
       let filled := base + Z.of_nat (String.length s) in
       if (base <=? addr) && (addr <? filled)
       then Some (nth (Z.to_nat (addr - base)) (list_ascii_of_string s) zero)
       else if (filled <=? addr) && (addr <? filled + n) then Some c
       else if (filled + n <=? addr) && (addr <? filled + n + 16) then Some zero
       else None |}.

(** The tracee has exited with status 0. *)
Definition exit_event : tracee_event :=
  {| ptrace_syscall_result := 0; waitpid_result := 1; wstatus := 0;
     registers := {| orig_rax := 0; rdi := 0; rsi := 0 |};
     memory := fun _ => None |}.

Definition newline : ascii := "010"%char.

Definition state_of (c : control) : tracer_state :=
  match c with Continue st => st | Break st => st end.

(** What the reader returns for "/etc/my.cnf" at 4096. *)
Definition copied_my_cnf : copied :=
  {| stored := lit "/etc/my.cnf" ++ [zero]; copy_result := 11;
     peeked := [4096; 4104] |}.

(** A tracee that opens /etc/my.cnf, checks /home/u/.my.cnf, opens
    /etc/my.cnf again and exits; every entry stop is followed by the exit
    stop of the same syscall. *)
Definition sample_session : list tracee_event :=
  [sigstop_event;
   syscall_event 257 0 4096 4096 "/etc/my.cnf"; syscall_event 257 0 4096 4096 "";
   syscall_event 21 8192 0 8192 "/home/u/.my.cnf"; syscall_event 21 8192 0 8192 "";
   syscall_event 257 0 4096 4096 "/etc/my.cnf"; syscall_event 257 0 4096 4096 "";
   exit_event].

(** PTRACE_SYSCALL fails. *)
Definition resume_failure_event : tracee_event :=
  {| ptrace_syscall_result := -1; waitpid_result := 1; wstatus := 1407;
     registers := {| orig_rax := 0; rdi := 0; rsi := 0 |};
     memory := fun _ => None |}.

(** waitpid fails; it leaves [status] alone. *)
Definition wait_failure_event : tracee_event :=
  {| ptrace_syscall_result := 0; waitpid_result := -1; wstatus := 0;
     registers := {| orig_rax := 0; rdi := 0; rsi := 0 |};
     memory := fun _ => None |}.

(** The tracee does not change state while the tracer polls. *)
Definition wait_timeout_event : tracee_event :=
  {| ptrace_syscall_result := 0; waitpid_result := 0; wstatus := 0;
     registers := {| orig_rax := 0; rdi := 0; rsi := 0 |};
     memory := fun _ => None |}.

(** The library cannot be loaded, and the file that the tracee opens to
    say so does not exist. *)
Definition no_library : library_answers :=
  {| raise_result := 0; dlopen_handle := 0;
     dlerror_mysql_init := 0; dlerror_mysql_options := 0;
     dlerror_mysql_real_connect := 0;
     mysql_init_result := 0; mysql_options_result := 0;
     mysql_real_connect_result := 0;
     fopen_result := fun _ => 0; access_result := fun _ => -1 |}.

Section Pgoptionfiles.

(** The constants that [pgoptionfiles.h] and <limits.h> define are
    parameters of the development. *)
Variable PGOPTIONFILES_DELIMITER : ascii.
Variable PGOPTIONFILES_MAX_FILE_NAMES_LIST_SIZE : Z.
Variable PGOPTIONFILES_READ : Z.
Variable PGOPTIONFILES_USE_TIMEOUT : Z.
Variable PATH_MAX : Z.

(** ** [pgoptionfiles_copy_from_tracee] *)

(** The inner loop over the bytes of one word.  [n] counts the iterations
    that [src_word_offset < sizeof(word)] still allows, [dest] holds the
    bytes stored so far, so that [dest_offset] is its length.  Returns the
    last value of [c] and the bytes stored. *)
Fixpoint copy_word_bytes (n : nat) (word : Z) (src_word_offset : Z)
    (c : ascii) (dest : list ascii) : ascii * list ascii :=
  match n with
  | O => (c, dest)
  | S n' =>
      let c := word_byte word src_word_offset in
      let c := if PATH_MAX - 1 <=? Z.of_nat (length dest) then zero else c in
      if Ascii.eqb c zero then (c, dest)
      else copy_word_bytes n' word (src_word_offset + 1) c (dest ++ [c])
  end.

(** The outer loop over the words; [None] when [fuel] iterations were not
    enough to leave it. *)
Fixpoint copy_words (fuel : nat) (mem : tracee_memory) (src : Z)
    (word_number : Z) (dest : list ascii) (peeks : list Z)
    : option (list ascii * list Z) :=
  match fuel with
  | O => None
  | S fuel' =>
      let addr := wrap64 (src + 8 * word_number) in
      match PTRACE_PEEKDATA mem addr with
      | None => Some (dest, peeks ++ [addr])
      | Some word =>
          let '(c, dest') := copy_word_bytes 8 word 0 zero dest in
          if Ascii.eqb c zero then Some (dest', peeks ++ [addr])
          else copy_words fuel' mem src (word_number + 1) dest' (peeks ++ [addr])
      end
  end.

Definition pgoptionfiles_copy_from_tracee (mem : tracee_memory) (src : Z)
    : option copied :=
  if src =? 0 then Some {| stored := []; copy_result := 0; peeked := [] |}
  else
    match copy_words (S (Z.to_nat PATH_MAX)) mem src 0 [] [] with
    | None => None
    | Some (dest, peeks) =>
        Some {| stored := dest ++ [zero];
                copy_result := Z.of_nat (length dest);
                peeked := peeks |}
    end.

(** ** [pgoptionfiles_tracer] *)

(** Lines 255-291: resume the tracee and wait for it.  [Continue] here
    means that the iteration goes on below.  A waitpid that returns the
    tracee stores [wstatus] in [status]; after a timeout the waitpid of
    line 278 leaves [wstatus] there. *)
Definition resume_and_wait (trace_number : Z) (ev : tracee_event)
    (st : tracer_state) : control :=
  if (0 <? trace_number) && (ptrace_syscall_result ev <? 0)
  then Break (set_retcode (-1) (called [ptrace_SYSCALL] st))
  else
    let st := if 0 <? trace_number then called [ptrace_SYSCALL] st else st in
    let st := called [waitpid] st in
    let st := if 0 <? waitpid_result ev then set_status (wstatus ev) st else st in
    if negb (PGOPTIONFILES_USE_TIMEOUT =? 0) && (waitpid_result ev =? 0)
    then Break (set_retcode (-1)
                  (set_error_list (strcat (error_list st) (lit "Error: waitpid timeout."))
                     (set_status (wstatus ev)
                        (called [kill SIGTERM; waitpid] st))))
    else if waitpid_result ev <? 0
    then
      if WIFEXITED (status st) then Break (set_retcode 0 st)
      else Break (set_retcode (-2)
                    (set_error_list (strcat (error_list st) (lit "Error: waitpid failed.")) st))
    else if WIFEXITED (status st) then Break (set_retcode 0 st)
    else Continue st.

(** Lines 292-301: the first stop has to be the SIGSTOP that the tracee
    raises. *)
Definition initial_stop (st : tracer_state) : control :=
  if negb (WIFSTOPPED (status st)) || negb (WSTOPSIG (status st) =? SIGSTOP)
  then Break (set_retcode (-3)
                (set_error_list
                   (error_list st ++ lit "Error: waitpid status: "
                      ++ printf_x (status st) ++ lit ".")
                   (called [kill SIGKILL] st)))
  else Continue st.

(** Lines 312-324: the address of the path argument of a monitored
    syscall, [None] for the other syscalls. *)
Definition path_argument (regs : user_regs_struct) : option Z :=
  let psi_entry_nr := orig_rax regs in
  if (psi_entry_nr =? SYSCALL_OPENAT) || (psi_entry_nr =? SYSCALL_ACCESS)
     || (psi_entry_nr =? SYSCALL_STAT) || (psi_entry_nr =? SYSCALL_OPEN)
     || (psi_entry_nr =? SYSCALL_LSTAT)
  then if psi_entry_nr =? SYSCALL_OPENAT then Some (rsi regs) else Some (rdi regs)
  else None.

(** Lines 336-346: with PGOPTIONFILES_READ == 0 the register of the path
    argument is moved by [file_name_length] and the registers are written
    back. *)
Definition patch_registers (regs : user_regs_struct) (file_name_length : Z)
    : user_regs_struct :=
  if orig_rax regs =? SYSCALL_OPENAT
  then {| orig_rax := orig_rax regs; rdi := rdi regs;
          rsi := wrap64 (rsi regs + file_name_length) |}
  else {| orig_rax := orig_rax regs;
          rdi := wrap64 (rdi regs + file_name_length); rsi := rsi regs |}.

(** Lines 325-353: [file_name] is the buffer that starts with the
    delimiter and goes on with the bytes that the reader stored. *)
Definition filter_and_collect (regs : user_regs_struct) (cp : copied)
    (st : tracer_state) : control :=
  if 0 <? copy_result cp then
    if strncmp_is_0 (c_str (stored cp)) (lit "Error: ") 7
    then Break (set_retcode (-6)
                  (set_error_list (strcat (error_list st) (c_str (stored cp))) st))
    else
      let file_name := c_str (PGOPTIONFILES_DELIMITER :: stored cp) in
      match strstr file_name (lit "my.cnf") with
      | None => Continue st
      | Some _ =>
          let file_name_length := strlen file_name in
          let st :=
            if PGOPTIONFILES_READ =? 0
            then called [ptrace_SETREGS (patch_registers regs file_name_length)] st
            else st in
          let file_name := file_name ++ [PGOPTIONFILES_DELIMITER] in
          match strstr (file_names_list st) file_name with
          | Some _ => Continue st
          | None =>
              if PGOPTIONFILES_MAX_FILE_NAMES_LIST_SIZE
                   <=? strlen (file_names_list st) + strlen file_name
              then Break st
              else Continue (set_file_names_list
                               (strcat (file_names_list st) file_name) st)
          end
      end
  else Continue st.

(** Lines 302-355: a stop with an odd [trace_number] is a syscall entry. *)
Definition syscall_entry (ev : tracee_event) (st : tracer_state)
    : option control :=
  let st := called [ptrace_GETREGS] st in
  match path_argument (registers ev) with
  | None => Some (Continue st)
  | Some src =>
      match pgoptionfiles_copy_from_tracee (memory ev) src with
      | None => None
      | Some cp =>
          Some (filter_and_collect (registers ev) cp
                  (called (ptrace_PEEKDATA <$> peeked cp) st))
      end
  end.

(** One iteration of the loop of lines 253-356; [None] only if the reader
    ran out of fuel. *)
Definition tracer_iteration (trace_number : Z) (ev : tracee_event)
    (st : tracer_state) : option control :=
  match resume_and_wait trace_number ev st with
  | Break st => Some (Break st)
  | Continue st =>
      if trace_number =? 0 then Some (initial_stop st)
      else if trace_number mod 2 =? 1 then syscall_entry ev st
      else Some (Continue st)
  end.

(** [++trace_number] on an [unsigned int]. *)
Definition next_trace_number (trace_number : Z) : Z :=
  (trace_number + 1) mod 2 ^ 32.

(** The loop, run on the events that the tracee produces; [None] when the
    events end before the loop does. *)
Fixpoint tracer_loop (trace_number : Z) (evs : list tracee_event)
    (st : tracer_state) : option tracer_state :=
  match evs with
  | [] => None
  | ev :: evs' =>
      match tracer_iteration trace_number ev st with
      | None => None
      | Some (Break st') => Some st'
      | Some (Continue st') => tracer_loop (next_trace_number trace_number) evs' st'
      end
  end.

(** Lines 357-372, on the characters from [i_in] on; [out] holds the
    characters written so far, so that [i_out] is its length.  The writes
    go to positions below [i_in] and leave the characters still to be
    read as they are.  The first case is line 364, which is reached for
    the empty list only; the second is line 366. *)
Fixpoint eliminate_delimiters (s : cstring) (out : cstring) : cstring :=
  match s with
  | [] => out
  | c :: rest =>
      match rest with
      | [] => out
      | next :: _ =>
          if negb (Ascii.eqb c PGOPTIONFILES_DELIMITER)
          then eliminate_delimiters rest (out ++ [c])
          else if (length out =? 0)%nat then eliminate_delimiters rest out
          else if Ascii.eqb next PGOPTIONFILES_DELIMITER
          then eliminate_delimiters rest out
          else eliminate_delimiters rest (out ++ [c])
      end
  end.

Definition initial_state (names errors : cstring) : tracer_state :=
  {| file_names_list := names; error_list := errors;
     retcode := 0; status := 0; calls := [] |}.

(** The tracer: the final [file_names_list] and [error_list], the value
    returned in [retcode] and the calls made. *)
Definition pgoptionfiles_tracer (evs : list tracee_event)
    (names errors : cstring) : option tracer_state :=
  match tracer_loop 0 evs (initial_state names errors) with
  | None => None
  | Some st =>
      Some (set_file_names_list (eliminate_delimiters (file_names_list st) []) st)
  end.

(** Lines 133-135 and 152 of [main]: the buffers handed to the tracer, as
    the strings that they hold; [main] itself looks at their sizes. *)
Definition main_tracer (evs : list tracee_event) : option tracer_state :=
  pgoptionfiles_tracer evs (lit "") (lit "(pgoptionfiles)").

(** ** Vocabulary of the statements *)

(** The loop over [evs] when none of these iterations leaves it: the
    trace number and the state at the head of the next iteration. *)
Fixpoint loop_head (trace_number : Z) (evs : list tracee_event)
    (st : tracer_state) : option (Z * tracer_state) :=
  match evs with
  | [] => Some (trace_number, st)
  | ev :: evs' =>
      match tracer_iteration trace_number ev st with
      | Some (Continue st') => loop_head (next_trace_number trace_number) evs' st'
      | _ => None
      end
  end.

(** The iteration is the entry stop of a monitored syscall: the tracee was
    resumed and has stopped, which leaves the state [st1], the trace
    number is odd, and the reader returned [cp] for the path argument. *)
Definition file_access_entry (trace_number : Z) (ev : tracee_event)
    (st st1 : tracer_state) (cp : copied) : Prop :=
  resume_and_wait trace_number ev st = Continue st1 ∧
  trace_number mod 2 = 1 ∧
  ∃ src, path_argument (registers ev) = Some src ∧
         pgoptionfiles_copy_from_tracee (memory ev) src = Some cp.

(** The string was extracted and is handed to the name filter: it is not
    empty and does not start with the error marker. *)
Definition is_path (cp : copied) : bool :=
  (0 <? copy_result cp) && negb (strncmp_is_0 (c_str (stored cp)) (lit "Error: ") 7).

(** The name filter of line 334, on the buffer [file_name]. *)
Definition is_option_file (path : cstring) : bool :=
  bool_decide (is_Some (strstr (c_str (PGOPTIONFILES_DELIMITER :: path)) (lit "my.cnf"))).

(** The path that the iteration hands to the collector, if any. *)
Definition matching_path (trace_number : Z) (ev : tracee_event)
    (st : tracer_state) : option cstring :=
  match resume_and_wait trace_number ev st with
  | Break _ => None
  | Continue _ =>
      if trace_number mod 2 =? 1 then
        match path_argument (registers ev) with
        | None => None
        | Some src =>
            match pgoptionfiles_copy_from_tracee (memory ev) src with
            | None => None
            | Some cp =>
                if is_path cp && is_option_file (c_str (stored cp))
                then Some (c_str (stored cp)) else None
            end
        end
      else None
  end.




(** The form in which a path enters [file_names_list]. *)
Definition delimited (path : cstring) : cstring :=
  PGOPTIONFILES_DELIMITER :: path ++ [PGOPTIONFILES_DELIMITER].







(** The registers that the loop over [evs] is to write in suppressed-read
    mode: for every path handed to the collector, the registers of that
    stop with the path argument moved by the length of [file_name]. *)
Fixpoint register_patches (trace_number : Z) (evs : list tracee_event)
    (st : tracer_state) : list user_regs_struct :=
  match evs with
  | [] => []
  | ev :: evs' =>
      match matching_path trace_number ev st with
      | Some p => [patch_registers (registers ev) (1 + strlen p)]
      | None => []
      end
      ++ match tracer_iteration trace_number ev st with
         | Some (Continue st') =>
             register_patches (next_trace_number trace_number) evs' st'
         | _ => []
         end
  end.

(** ** The tracee and [main] *)

Variable PGOPTIONFILES_TRACEE_ONLY : Z.

(** Lines 214-223.  [made] holds the calls made so far. *)
Definition pgoptionfiles_tracee_error (ans : library_answers) (message : cstring)
    (made : list tracee_call) : process_end :=
  if PGOPTIONFILES_TRACEE_ONLY =? 1 then
    {| stdout := message ++ [newline]; exit_code := EXIT_FAILURE;
       tracee_calls := made |}
  else if fopen_result ans message =? 0 then
    {| stdout := []; exit_code := EXIT_FAILURE;
       tracee_calls := made ++ [tracee_fopen message] |}
  else if access_result ans message =? 0 then
    {| stdout := []; exit_code := EXIT_FAILURE;
       tracee_calls := made ++ [tracee_fopen message; tracee_access message] |}
  else
    {| stdout := []; exit_code := EXIT_SUCCESS;
       tracee_calls := made ++ [tracee_fopen message; tracee_access message] |}.

(** Lines 167-206.  Every path ends in [exit]: the function does not
    return. *)
Definition pgoptionfiles_tracee (ans : library_answers) (argv1 : cstring)
    : process_end :=
  let made :=
    if PGOPTIONFILES_TRACEE_ONLY =? 0
    then [tracee_ptrace_TRACEME; tracee_raise SIGSTOP] else [] in
  if (PGOPTIONFILES_TRACEE_ONLY =? 0) && negb (raise_result ans =? 0) then
    pgoptionfiles_tracee_error ans (lit "Error: raise sigstop failed.") made
  else
  let made := made ++ [tracee_dlopen argv1] in
  if dlopen_handle ans =? 0 then
    pgoptionfiles_tracee_error ans
      (lit "Error: dlopen() failed --does library exist and is it Connector C?")
      made
  else
  let made := made ++ [tracee_dlsym (lit "mysql_init")] in
  if negb (dlerror_mysql_init ans =? 0) then
    pgoptionfiles_tracee_error ans
      (lit "Error: dlsym() failed for mysql_init() -- is this a Connector C library?")
      made
  else
  let made := made ++ [tracee_dlsym (lit "mysql_options")] in
  if negb (dlerror_mysql_options ans =? 0) then
    pgoptionfiles_tracee_error ans
      (lit "Error: dlsym() failed for mysql_options() -- is this a Connector C library?")
      made
  else
  let made := made ++ [tracee_dlsym (lit "mysql_real_connect")] in
  if negb (dlerror_mysql_real_connect ans =? 0) then
    pgoptionfiles_tracee_error ans
      (lit "Error: dlsym() failed for mysql_real_connect() -- is this a Connector C library?")
      made
  else
  let made := made ++ [tracee_mysql_init] in
  if mysql_init_result ans =? 0 then
    pgoptionfiles_tracee_error ans
      (lit "Error: mysql_init() failed -- out of memory?") made
  else
  let made := made ++ [tracee_mysql_options] in
  if mysql_options_result ans =? 1 then
    pgoptionfiles_tracee_error ans
      (lit "Error: mysql_options() failed -- bad syntax in an option file?") made
  else
  let made := made ++ [tracee_mysql_real_connect] in
  if negb (mysql_real_connect_result ans =? 0) then
    pgoptionfiles_tracee_error ans
      (lit "Error: mysql_real_connect() succeeded -- this is probably harmless.")
      made
  else
    {| stdout := []; exit_code := EXIT_SUCCESS; tracee_calls := made |}.

(** Lines 131-158, for the process in which [fork] has returned [pid].
    The tracer writes into the arrays of lines 133 and 134.  It checks
    the room in [file_names_list] before it appends (line 351), and not
    the room in [error_list], of [error_list_size] bytes: when the error
    list that it builds does not fit, [main] ends in [Overrun]. *)
Definition main (argc : Z) (argv1 : cstring) (pid : Z) (ans : library_answers)
    (evs : list tracee_event) : option main_end :=
  if argc <? 2 then
    Some (Ended
            {| stdout :=
                 lit "(pgoptionfiles)Error: too few args. Say pgoptionfiles library-file"
                 ++ [newline];
               exit_code := 1; tracee_calls := [] |})
  else if PGOPTIONFILES_TRACEE_ONLY =? 1 then
    Some (Ended (pgoptionfiles_tracee ans argv1))
  else if pid <? 0 then
    Some (Ended
            {| stdout := lit "(pgoptionfiles)Error: fork() failed" ++ [newline];
               exit_code := -1; tracee_calls := [] |})
  else if pid =? 0 then
    Some (Ended (pgoptionfiles_tracee ans argv1))
  else
    match main_tracer evs with
    | None => None
    | Some st =>
        if fits error_list_size (error_list st) then
          Some (Ended
                  {| stdout := error_list st ++ [newline]
                               ++ file_names_list st ++ [newline];
                     exit_code := retcode st; tracee_calls := [] |})
        else Some Overrun
    end.

(** ** C strings: lemmas *)

Lemma ascii_eqb_false (a b : ascii) : Ascii.eqb a b = false ↔ a ≠ b.
Proof.
  split.
  - intros H ->. by rewrite Ascii.eqb_refl in H.
  - intros H. destruct (Ascii.eqb a b) eqn:E; [|done].
    by apply Ascii.eqb_eq in E.
Qed.

Lemma c_str_nonzero (buf : list ascii) : Forall (λ c, c ≠ zero) (c_str buf).
Proof.
  induction buf as [|c buf IH]; simpl; [constructor|].
  destruct (Ascii.eqb c zero) eqn:E; constructor; [|done].
  by apply ascii_eqb_false.
Qed.

Lemma c_str_terminated (s rest : list ascii) :
  Forall (λ c, c ≠ zero) s → c_str (s ++ zero :: rest) = s.
Proof.
  induction 1 as [|c s Hc _ IH]; simpl; [done|].
  apply ascii_eqb_false in Hc. by rewrite Hc, IH.
Qed.

Lemma c_str_id (s : list ascii) : Forall (λ c, c ≠ zero) s → c_str s = s.
Proof.
  induction 1 as [|c s Hc _ IH]; simpl; [done|].
  apply ascii_eqb_false in Hc. by rewrite Hc, IH.
Qed.

Lemma c_str_cons_c_str (d : ascii) (buf : list ascii) :
  c_str (d :: c_str buf) = c_str (d :: buf).
Proof.
  simpl. destruct (Ascii.eqb d zero); [done|].
  by rewrite (c_str_id (c_str buf)) by apply c_str_nonzero.
Qed.





Lemma strncmp_is_0_spec (s1 s2 : cstring) (n : nat) :
  strncmp_is_0 s1 s2 n = true ↔ take n s1 = take n s2.
Proof. unfold strncmp_is_0. apply bool_decide_eq_true. Qed.

(** ** The reader: lemmas *)

Lemma copy_word_bytes_spec (n : nat) (word src_word_offset : Z) (c : ascii)
    (dest : list ascii) :
  ∃ added,
    (copy_word_bytes n word src_word_offset c dest).2 = dest ++ added
    ∧ Forall (λ c, c ≠ zero) added
    ∧ (length added ≤ n)%nat
    ∧ (added ≠ [] → Z.of_nat (length (dest ++ added)) ≤ PATH_MAX - 1)
    ∧ ((copy_word_bytes n word src_word_offset c dest).1 ≠ zero
       → length added = n).
Proof.
  revert src_word_offset c dest. induction n as [|n IH]; intros off c dest; simpl.
  { exists []. rewrite app_nil_r. repeat split; auto; done. }
  set (c' := if PATH_MAX - 1 <=? Z.of_nat (length dest) then zero
             else word_byte word off).
  destruct (Ascii.eqb c' zero) eqn:E.
  - apply Ascii.eqb_eq in E. exists []. rewrite app_nil_r. simpl.
    repeat split; auto; try done; lia.
  - apply ascii_eqb_false in E.
    destruct (IH (off + 1) c' (dest ++ [c'])) as (added & Hd & Hnz & Hlen & Hcap & Hc).
    exists (c' :: added). rewrite Hd, <- app_assoc. simpl.
    repeat split; auto.
    + lia.
    + intros _. destruct added as [|a added].
      * rewrite length_app. simpl. subst c'.
        destruct (Z.leb_spec (PATH_MAX - 1) (Z.of_nat (length dest))); [done|lia].
      * specialize (Hcap ltac:(done)). by rewrite <- app_assoc in Hcap.
Qed.

(** The words loop leaves within the fuel that the reader gives it. *)
Lemma copy_words_spec (fuel : nat) (mem : tracee_memory) (src word_number : Z)
    (dest : list ascii) (peeks : list Z) :
  (1 ≤ fuel)%nat →
  PATH_MAX - 1 - Z.of_nat (length dest) < Z.of_nat fuel →
  ∃ added peeks',
    copy_words fuel mem src word_number dest peeks = Some (dest ++ added, peeks')
    ∧ Forall (λ c, c ≠ zero) added
    ∧ (added ≠ [] → Z.of_nat (length (dest ++ added)) ≤ PATH_MAX - 1).
Proof.
  revert word_number dest peeks.
  induction fuel as [|fuel IH]; intros wn dest peeks Hfuel Hlen; [lia|].
  cbn [copy_words].
  destruct (PTRACE_PEEKDATA mem (wrap64 (src + 8 * wn))) as [word|].
  2:{ exists [], (peeks ++ [wrap64 (src + 8 * wn)]). rewrite app_nil_r.
      repeat split; auto; done. }
  destruct (copy_word_bytes_spec 8 word 0 zero dest)
    as (added & Hd & Hnz & Hn & Hcap & Hc).
  destruct (copy_word_bytes 8 word 0 zero dest) as [c dest'] eqn:E.
  simpl in Hd, Hc. subst dest'.
  destruct (Ascii.eqb c zero) eqn:Ec.
  - eauto 6.
  - apply ascii_eqb_false in Ec. specialize (Hc Ec).
    assert (added ≠ []) as Hne by (intros ->; done).
    specialize (Hcap Hne). rewrite length_app in Hcap.
    destruct (IH (wn + 1) (dest ++ added) (peeks ++ [wrap64 (src + 8 * wn)]))
      as (added' & peeks' & Hw & Hnz' & Hcap'); [lia|rewrite length_app; lia|].
    exists (added ++ added'), peeks'. rewrite Hw, <- app_assoc.
    split; [done|]. split; [by apply Forall_app|].
    intros _. destruct added' as [|a added'].
    + rewrite app_nil_r, length_app. lia.
    + rewrite <- app_assoc in Hcap'. by apply Hcap'.
Qed.

(** The reader returns for every memory and every address. *)
Lemma copy_from_tracee_returns (mem : tracee_memory) (src : Z) :
  src ≠ 0 →
  ∃ path peeks,
    pgoptionfiles_copy_from_tracee mem src
    = Some {| stored := path ++ [zero];
              copy_result := Z.of_nat (length path);
              peeked := peeks |}
    ∧ Forall (λ c, c ≠ zero) path
    ∧ (path ≠ [] → Z.of_nat (length path) ≤ PATH_MAX - 1).
Proof.
  intros Hsrc. unfold pgoptionfiles_copy_from_tracee.
  destruct (Z.eqb_spec src 0) as [|_]; [done|].
  destruct (copy_words_spec (S (Z.to_nat PATH_MAX)) mem src 0 [] [])
    as (path & peeks & -> & Hnz & Hcap); [lia|simpl; lia|].
  simpl. eauto.
Qed.

Lemma copy_from_tracee_total (mem : tracee_memory) (src : Z) :
  ∃ cp, pgoptionfiles_copy_from_tracee mem src = Some cp
        ∧ copy_result cp = Z.of_nat (length (c_str (stored cp))).
Proof.
  destruct (Z.eq_dec src 0) as [->|Hsrc].
  - eexists. split; [done|done].
  - destruct (copy_from_tracee_returns mem src Hsrc) as (path & peeks & -> & Hnz & _).
    eexists. split; [done|]. simpl. by rewrite c_str_terminated.
Qed.

(** C8: for a NULL remote address the reader returns 0; it has read
    nothing from the tracee and stored nothing. *)
Theorem copy_from_tracee_null (mem : tracee_memory) :
  pgoptionfiles_copy_from_tracee mem 0
  = Some {| stored := []; copy_result := 0; peeked := [] |}.
Proof. reflexivity. Qed.

(** C9: for a remote address that is not NULL the reader returns, whatever
    the memory of the tracee holds; it has stored [copy_result] bytes that
    are not NUL, followed by one NUL, and [copy_result] is at most
    [PATH_MAX - 1], hence below [PATH_MAX]. *)
Theorem copy_from_tracee_bounded (mem : tracee_memory) (src : Z) :
  0 < PATH_MAX → src ≠ 0 →
  ∃ path peeks,
    pgoptionfiles_copy_from_tracee mem src
    = Some {| stored := path ++ [zero];
              copy_result := Z.of_nat (length path);
              peeked := peeks |}
    ∧ Forall (λ c, c ≠ zero) path
    ∧ c_str (path ++ [zero]) = path
    ∧ Z.of_nat (length path) ≤ PATH_MAX - 1
    ∧ Z.of_nat (length path) < PATH_MAX.
Proof.
  intros Hmax Hsrc.
  destruct (copy_from_tracee_returns mem src Hsrc) as (path & peeks & E & Hnz & Hcap).
  exists path, peeks. split; [done|]. split; [done|].
  split; [by apply c_str_terminated|].
  destruct path as [|a path]; [simpl; lia|].
  specialize (Hcap ltac:(done)). lia.
Qed.

(** ** The monitor loop: what an iteration keeps *)

Lemma resume_and_wait_list (trace_number : Z) (ev : tracee_event)
    (st : tracer_state) :
  file_names_list (state_of (resume_and_wait trace_number ev st))
  = file_names_list st.
Proof. unfold resume_and_wait. by repeat case_match. Qed.

Lemma resume_and_wait_Continue (trace_number : Z) (ev : tracee_event)
    (st st1 : tracer_state) :
  resume_and_wait trace_number ev st = Continue st1 →
  file_names_list st1 = file_names_list st
  ∧ error_list st1 = error_list st
  ∧ retcode st1 = retcode st.
Proof. unfold resume_and_wait. repeat case_match; by intros [= <-]. Qed.

Lemma initial_stop_list (st : tracer_state) :
  file_names_list (state_of (initial_stop st)) = file_names_list st.
Proof. unfold initial_stop. by case_match. Qed.

Lemma initial_stop_Continue (st st1 : tracer_state) :
  initial_stop st = Continue st1 → st1 = st.
Proof. unfold initial_stop. by case_match; intros [= <-]. Qed.

Lemma filter_and_collect_Continue (regs : user_regs_struct) (cp : copied)
    (st st1 : tracer_state) :
  filter_and_collect regs cp st = Continue st1 →
  error_list st1 = error_list st ∧ retcode st1 = retcode st.
Proof. unfold filter_and_collect. repeat case_match; by intros [= <-]. Qed.

Lemma odd_trace_number (trace_number : Z) :
  trace_number mod 2 = 1 →
  (trace_number =? 0) = false ∧ (trace_number mod 2 =? 1) = true.
Proof.
  intros H. split; [|by apply Z.eqb_eq].
  apply Z.eqb_neq. intros ->. done.
Qed.

Lemma tracer_iteration_Continue (trace_number : Z) (ev : tracee_event)
    (st st1 : tracer_state) :
  tracer_iteration trace_number ev st = Some (Continue st1) →
  error_list st1 = error_list st ∧ retcode st1 = retcode st.
Proof.
  unfold tracer_iteration.
  destruct (resume_and_wait trace_number ev st) as [st0|] eqn:E; [|done].
  apply resume_and_wait_Continue in E as (_ & <- & <-).
  destruct (trace_number =? 0).
  { intros [= H]. by apply initial_stop_Continue in H as ->. }
  destruct (trace_number mod 2 =? 1); [|by intros [= <-]].
  unfold syscall_entry.
  destruct (path_argument (registers ev)) as [src|]; [|by intros [= <-]].
  destruct (pgoptionfiles_copy_from_tracee (memory ev) src); [|done].
  intros [= H]. by apply filter_and_collect_Continue in H.
Qed.

(** No iteration runs out of fuel. *)
Lemma tracer_iteration_total (trace_number : Z) (ev : tracee_event)
    (st : tracer_state) :
  is_Some (tracer_iteration trace_number ev st).
Proof.
  unfold tracer_iteration, syscall_entry.
  repeat case_match; try done.
  match goal with
  | H : pgoptionfiles_copy_from_tracee ?m ?a = None |- _ =>
      destruct (copy_from_tracee_total m a) as (? & ? & _); congruence
  end.
Qed.

Lemma tracer_iteration_file_access (trace_number : Z) (ev : tracee_event)
    (st st1 : tracer_state) (cp : copied) :
  file_access_entry trace_number ev st st1 cp →
  tracer_iteration trace_number ev st
  = Some (filter_and_collect (registers ev) cp
            (called (ptrace_PEEKDATA <$> peeked cp)
               (called [ptrace_GETREGS] st1))).
Proof.
  intros (Hwait & Hodd & src & Hsrc & Hcp).
  apply odd_trace_number in Hodd as [H0 H1].
  unfold tracer_iteration, syscall_entry.
  by rewrite Hwait, H0, H1, Hsrc, Hcp.
Qed.

Lemma loop_head_keeps (evs : list tracee_event) (trace_number : Z)
    (st : tracer_state) (trace_number' : Z) (st' : tracer_state) :
  loop_head trace_number evs st = Some (trace_number', st') →
  error_list st' = error_list st ∧ retcode st' = retcode st.
Proof.
  revert trace_number st. induction evs as [|ev evs IH]; intros tn st; simpl.
  { by intros [= <- <-]. }
  destruct (tracer_iteration tn ev st) as [[st1|]|] eqn:E; try done.
  intros H. apply IH in H as [-> ->]. by apply tracer_iteration_Continue in E.
Qed.

Lemma tracer_loop_app (pre evs : list tracee_event) (trace_number : Z)
    (st : tracer_state) (trace_number' : Z) (st' : tracer_state) :
  loop_head trace_number pre st = Some (trace_number', st') →
  tracer_loop trace_number (pre ++ evs) st = tracer_loop trace_number' evs st'.
Proof.
  revert trace_number st. induction pre as [|ev pre IH]; intros tn st; simpl.
  { by intros [= <- <-]. }
  destruct (tracer_iteration tn ev st) as [[st1|]|]; try done. apply IH.
Qed.

(** The loop ends, with 0, when a wait reports that the tracee has
    exited. *)
Lemma exit_ends_session (pre : list tracee_event) (ev : tracee_event)
    (post : list tracee_event) (names errors : cstring)
    (trace_number : Z) (st : tracer_state) :
  loop_head 0 pre (initial_state names errors) = Some (trace_number, st) →
  0 ≤ ptrace_syscall_result ev →
  0 < waitpid_result ev →
  WIFEXITED (wstatus ev) = true →
  ∃ st',
    pgoptionfiles_tracer (pre ++ ev :: post) names errors = Some st'
    ∧ retcode st' = 0
    ∧ error_list st' = errors
    ∧ file_names_list st' = eliminate_delimiters (file_names_list st) [].
Proof.
  intros Hpre Hsys Hwait Hexit.
  pose proof (loop_head_keeps _ _ _ _ _ Hpre) as [He _].
  unfold pgoptionfiles_tracer. rewrite (tracer_loop_app _ _ _ _ _ _ Hpre).
  simpl tracer_loop. unfold tracer_iteration, resume_and_wait.
  destruct (Z.ltb_spec (ptrace_syscall_result ev) 0) as [|_]; [lia|].
  rewrite andb_false_r.
  destruct (Z.ltb_spec 0 (waitpid_result ev)) as [_|]; [|lia].
  destruct (Z.eqb_spec (waitpid_result ev) 0) as [|_]; [lia|].
  rewrite andb_false_r.
  destruct (Z.ltb_spec (waitpid_result ev) 0) as [|_]; [lia|].
  simpl status. rewrite Hexit. eexists. split; [done|].
  destruct (0 <? trace_number); simpl; by rewrite He.
Qed.

(** ** The monitored syscalls *)

(** C6: at a syscall entry, that is, at a stop with an odd trace number,
    the reader is called exactly for the syscall numbers 2 (open), 4
    (stat), 6 (lstat), 21 (access) and 257 (openat); it is given the
    register [rsi] for openat and the register [rdi] for the other four.
    For every other syscall number the iteration only reads the
    registers. *)
Theorem syscall_entry_path_argument (trace_number : Z) (ev : tracee_event)
    (st st1 : tracer_state) :
  trace_number mod 2 = 1 →
  resume_and_wait trace_number ev st = Continue st1 →
  tracer_iteration trace_number ev st
  = if decide (orig_rax (registers ev) ∈ [2; 4; 6; 21; 257])
    then
      cp ← pgoptionfiles_copy_from_tracee (memory ev)
             (if decide (orig_rax (registers ev) = 257)
              then rsi (registers ev) else rdi (registers ev));
      Some (filter_and_collect (registers ev) cp
              (called (ptrace_PEEKDATA <$> peeked cp)
                 (called [ptrace_GETREGS] st1)))
    else Some (Continue (called [ptrace_GETREGS] st1)).
Proof.
  intros Hodd Hwait. apply odd_trace_number in Hodd as [H0 H1].
  unfold tracer_iteration, syscall_entry, path_argument.
  rewrite Hwait, H0, H1.
  unfold SYSCALL_OPENAT, SYSCALL_ACCESS, SYSCALL_STAT, SYSCALL_OPEN, SYSCALL_LSTAT.
  destruct (registers ev) as [nr a0 a1]. simpl.
  destruct (Z.eqb_spec nr 257) as [->|]; [done|].
  destruct (Z.eqb_spec nr 21) as [->|]; [done|].
  destruct (Z.eqb_spec nr 4) as [->|]; [done|].
  destruct (Z.eqb_spec nr 2) as [->|]; [done|].
  destruct (Z.eqb_spec nr 6) as [->|]; [done|].
  simpl. rewrite decide_False; [done|].
  rewrite !elem_of_cons, elem_of_nil. lia.
Qed.

(** ** The first stop *)

(** The status of a stopped tracee is not the status of an exit. *)
Lemma stopped_is_not_exited (status : Z) :
  WIFSTOPPED status = true → WIFEXITED status = false.
Proof.
  unfold WIFSTOPPED, WIFEXITED. intros H%Z.eqb_eq. apply Z.eqb_neq.
  change 127 with (Z.land 255 127) at 1. rewrite Z.land_assoc, H. done.
Qed.

(** The value -3 is returned for a wrong first stop only. *)
Lemma only_initial_stop_returns_minus_3 (trace_number : Z) (ev : tracee_event)
    (st st' : tracer_state) :
  retcode st = 0 →
  tracer_iteration trace_number ev st = Some (Break st') →
  retcode st' = -3 →
  trace_number = 0
  ∧ (WIFSTOPPED (status st') = false ∨ WSTOPSIG (status st') ≠ SIGSTOP).
Proof.
  intros Hret. unfold tracer_iteration.
  destruct (resume_and_wait trace_number ev st) as [st1|st1] eqn:E.
  - apply resume_and_wait_Continue in E as (_ & _ & Hret1). rewrite Hret in Hret1.
    destruct (Z.eqb_spec trace_number 0) as [->|_].
    + unfold initial_stop.
      destruct (negb (WIFSTOPPED (status st1))
                || negb (WSTOPSIG (status st1) =? SIGSTOP)) eqn:Estop; [|done].
      intros [= <-] _. split; [done|]. simpl.
      apply orb_true_iff in Estop as [H|H]; apply negb_true_iff in H; [by left|].
      right. by apply Z.eqb_neq.
    + destruct (trace_number mod 2 =? 1); [|done].
      unfold syscall_entry.
      destruct (path_argument (registers ev)) as [src|]; [|done].
      destruct (pgoptionfiles_copy_from_tracee (memory ev) src); [|done].
      unfold filter_and_collect.
      repeat case_match; intros [= <-]; simpl; lia.
  - revert E. unfold resume_and_wait.
    repeat case_match; intros [= <-] [= <-]; simpl; lia.
Qed.

(** C7: when the first wait reports a status that is not an exit, as the
    status of a stop never is, and not a stop by SIGSTOP, the tracer
    sends SIGKILL to the tracee, appends the message "Error: waitpid
    status: <status in hexadecimal>." to the error list and returns -3;
    no iteration but the first one, with trace number 0, ends the loop
    with -3. *)
Theorem initial_stop_not_sigstop (ev : tracee_event) (evs : list tracee_event)
    (names errors : cstring) :
  0 < waitpid_result ev →
  WIFEXITED (wstatus ev) = false →
  WIFSTOPPED (wstatus ev) = false ∨ WSTOPSIG (wstatus ev) ≠ SIGSTOP →
  pgoptionfiles_tracer (ev :: evs) names errors
  = Some {| file_names_list := eliminate_delimiters names [];
            error_list := errors ++ lit "Error: waitpid status: "
                            ++ printf_x (wstatus ev) ++ lit ".";
            retcode := -3;
            status := wstatus ev;
            calls := [waitpid; kill SIGKILL] |}
  ∧ (∀ trace_number ev' st st',
       retcode st = 0 →
       tracer_iteration trace_number ev' st = Some (Break st') →
       retcode st' = -3 → trace_number = 0).
Proof.
  intros Hwait Hexit Hstop. split.
  2:{ intros tn ev' st st' H0 Hit H3.
      by destruct (only_initial_stop_returns_minus_3 _ _ _ _ H0 Hit H3). }
  unfold pgoptionfiles_tracer, tracer_loop, tracer_iteration, resume_and_wait.
  simpl.
  destruct (Z.ltb_spec 0 (waitpid_result ev)) as [_|]; [|lia].
  destruct (Z.eqb_spec (waitpid_result ev) 0) as [|_]; [lia|].
  rewrite andb_false_r.
  destruct (Z.ltb_spec (waitpid_result ev) 0) as [|_]; [lia|].
  simpl. rewrite Hexit. unfold initial_stop. simpl.
  assert (negb (WIFSTOPPED (wstatus ev))
          || negb (WSTOPSIG (wstatus ev) =? SIGSTOP) = true) as ->.
  { destruct Hstop as [->|Hsig]; [done|].
    apply Z.eqb_neq in Hsig. rewrite Hsig. by rewrite orb_true_r. }
  done.
Qed.

(** ** The filter and the collector *)

(** A name that passes the filter of line 334 enters the list in its
    delimited form. *)
Lemma option_file_name (buf : list ascii) :
  is_option_file (c_str buf) = true →
  ∃ n, strstr (c_str (PGOPTIONFILES_DELIMITER :: buf)) (lit "my.cnf") = Some n
       ∧ c_str (PGOPTIONFILES_DELIMITER :: buf) ++ [PGOPTIONFILES_DELIMITER]
         = delimited (c_str buf)
       ∧ strlen (c_str (PGOPTIONFILES_DELIMITER :: buf)) = 1 + strlen (c_str buf).
Proof.
  unfold is_option_file. rewrite bool_decide_eq_true, c_str_cons_c_str.
  intros [n Hn]. exists n. split; [done|].
  revert Hn. simpl. destruct (Ascii.eqb PGOPTIONFILES_DELIMITER zero); [done|].
  intros _. split; [done|]. unfold strlen. simpl length. lia.
Qed.

Lemma filter_and_collect_matching (regs : user_regs_struct) (cp : copied)
    (st : tracer_state) :
  is_path cp = true →
  is_option_file (c_str (stored cp)) = true →
  filter_and_collect regs cp st
  = let file_name := delimited (c_str (stored cp)) in
    let st2 :=
      if PGOPTIONFILES_READ =? 0
      then called [ptrace_SETREGS
                     (patch_registers regs (1 + strlen (c_str (stored cp))))] st
      else st in
    match strstr (file_names_list st) file_name with
    | Some _ => Continue st2
    | None =>
        if PGOPTIONFILES_MAX_FILE_NAMES_LIST_SIZE
             <=? strlen (file_names_list st) + strlen file_name
        then Break st2
        else Continue (set_file_names_list
                         (strcat (file_names_list st) file_name) st2)
    end.
Proof.
  unfold is_path. rewrite andb_true_iff, negb_true_iff. intros [Hpos Herr] Hfile.
  apply option_file_name in Hfile as (n & Hn & Hname & Hlen).
  unfold filter_and_collect. rewrite Hpos, Herr, Hn, Hname, Hlen.
  by destruct (PGOPTIONFILES_READ =? 0).
Qed.

Lemma filter_and_collect_other (regs : user_regs_struct) (cp : copied)
    (st : tracer_state) :
  is_path cp && is_option_file (c_str (stored cp)) = false →
  file_names_list (state_of (filter_and_collect regs cp st)) = file_names_list st.
Proof.
  unfold is_path, filter_and_collect, is_option_file.
  rewrite c_str_cons_c_str.
  destruct (0 <? copy_result cp); [|done].
  destruct (strncmp_is_0 (c_str (stored cp)) (lit "Error: ") 7); [done|].
  simpl andb. rewrite bool_decide_eq_false.
  destruct (strstr (c_str (PGOPTIONFILES_DELIMITER :: stored cp)) (lit "my.cnf"))
    eqn:E; [|done].
  intros []. by eexists.
Qed.

Lemma error_marker_is_read (cp : copied) (mem : tracee_memory) (src : Z) :
  pgoptionfiles_copy_from_tracee mem src = Some cp →
  take 7 (c_str (stored cp)) = lit "Error: " →
  (0 <? copy_result cp) = true
  ∧ strncmp_is_0 (c_str (stored cp)) (lit "Error: ") 7 = true.
Proof.
  intros Hcp Htake.
  destruct (copy_from_tracee_total mem src) as (cp' & Hcp' & Hlen).
  rewrite Hcp in Hcp'. injection Hcp' as <-. split.
  - apply Z.ltb_lt. rewrite Hlen.
    destruct (c_str (stored cp)); [done|]. simpl length. lia.
  - apply strncmp_is_0_spec. by rewrite Htake.
Qed.

(** With PGOPTIONFILES_READ == 0, the register of the path argument is
    moved by the length of [file_name], which starts with the delimiter:
    by one more than the length of the path. *)
Lemma suppressed_read_offset (trace_number : Z) (ev : tracee_event)
    (st st1 : tracer_state) (cp : copied) :
  PGOPTIONFILES_READ = 0 →
  file_access_entry trace_number ev st st1 cp →
  is_path cp = true →
  is_option_file (c_str (stored cp)) = true →
  ∃ c,
    tracer_iteration trace_number ev st = Some c
    ∧ last (calls (state_of c))
      = Some (ptrace_SETREGS
                (patch_registers (registers ev) (strlen (c_str (stored cp)) + 1))).
Proof.
  intros Hread Hentry Hpath Hfile.
  rewrite (tracer_iteration_file_access _ _ _ _ _ Hentry).
  rewrite filter_and_collect_matching by done.
  eexists. split; [done|]. rewrite Z.add_comm, Hread, Z.eqb_refl. cbv zeta.
  repeat case_match; simpl; by rewrite last_snoc.
Qed.

(** When the string read at the entry of a monitored syscall starts with
    "Error: " and the error list with this string has room in the array
    of the caller, of [size] bytes, the loop ends in this iteration,
    whatever the tracee would do next: the tracer returns -6, the error
    list is the one passed in followed by that string, and the file
    names list is the one collected by the earlier iterations, with its
    delimiters normalized.  The name filter is not consulted.  Line 330
    does not check the room. *)
Lemma error_marker_ends_session (size : Z) (pre : list tracee_event)
    (ev : tracee_event) (post : list tracee_event) (names errors : cstring)
    (trace_number : Z) (st st1 : tracer_state) (cp : copied) :
  loop_head 0 pre (initial_state names errors) = Some (trace_number, st) →
  file_access_entry trace_number ev st st1 cp →
  take 7 (c_str (stored cp)) = lit "Error: " →
  fits size (errors ++ c_str (stored cp)) = true →
  ∃ st',
    pgoptionfiles_tracer (pre ++ ev :: post) names errors = Some st'
    ∧ error_list st' = errors ++ c_str (stored cp)
    ∧ fits size (error_list st') = true
    ∧ retcode st' = -6
    ∧ file_names_list st' = eliminate_delimiters (file_names_list st) []
    ∧ calls st' = calls st1 ++ ptrace_GETREGS :: (ptrace_PEEKDATA <$> peeked cp).
Proof.
  intros Hpre Hentry Hmarker Hfits.
  pose proof (tracer_iteration_file_access _ _ _ _ _ Hentry) as Hit.
  destruct Hentry as (Hwait & _ & src & _ & Hcp).
  apply (error_marker_is_read _ _ _ Hcp) in Hmarker as [Hpos Herr].
  apply resume_and_wait_Continue in Hwait as (Hl & He & _).
  pose proof (loop_head_keeps _ _ _ _ _ Hpre) as [He' _].
  unfold pgoptionfiles_tracer. rewrite (tracer_loop_app _ _ _ _ _ _ Hpre).
  simpl tracer_loop. rewrite Hit. unfold filter_and_collect.
  rewrite Hpos, Herr. eexists. split; [done|]. simpl.
  unfold strcat. rewrite He, He', Hl, <- app_assoc. done.
Qed.

(** C5: when a path has passed the filter, is not in the list yet, and the
    length of the list plus the length of the delimited path reaches
    PGOPTIONFILES_MAX_FILE_NAMES_LIST_SIZE, the loop ends in this
    iteration: the tracer returns 0, the error list is the one passed in,
    and the file names list is the one collected by the earlier
    iterations, with its delimiters normalized. *)
Theorem capacity_ends_session (pre : list tracee_event) (ev : tracee_event)
    (post : list tracee_event) (names errors : cstring)
    (trace_number : Z) (st st1 : tracer_state) (cp : copied) :
  loop_head 0 pre (initial_state names errors) = Some (trace_number, st) →
  file_access_entry trace_number ev st st1 cp →
  is_path cp = true →
  is_option_file (c_str (stored cp)) = true →
  strstr (file_names_list st) (delimited (c_str (stored cp))) = None →
  PGOPTIONFILES_MAX_FILE_NAMES_LIST_SIZE
    ≤ strlen (file_names_list st) + strlen (delimited (c_str (stored cp))) →
  ∃ st',
    pgoptionfiles_tracer (pre ++ ev :: post) names errors = Some st'
    ∧ retcode st' = 0
    ∧ error_list st' = errors
    ∧ file_names_list st' = eliminate_delimiters (file_names_list st) [].
Proof.
  intros Hpre Hentry Hpath Hfile Hnew Hfull.
  pose proof (tracer_iteration_file_access _ _ _ _ _ Hentry) as Hit.
  destruct Hentry as (Hwait & _).
  apply resume_and_wait_Continue in Hwait as (Hl & He & Hr).
  pose proof (loop_head_keeps _ _ _ _ _ Hpre) as [He' Hr'].
  unfold pgoptionfiles_tracer. rewrite (tracer_loop_app _ _ _ _ _ _ Hpre).
  simpl tracer_loop. rewrite Hit.
  rewrite filter_and_collect_matching by done.
  cbn zeta. simpl file_names_list. rewrite Hl, Hnew.
  apply Z.leb_le in Hfull. rewrite Hfull.
  eexists. split; [done|].
  destruct (PGOPTIONFILES_READ =? 0); simpl; rewrite ?He, ?He', ?Hr, ?Hr', ?Hl; done.
Qed.

(** With PGOPTIONFILES_READ == 0, every path that has passed the filter
    has its argument register moved and the registers written back with
    PTRACE_SETREGS before the list is searched for it and before the size
    of the list is checked: the call is made when the path is already in
    the list, when the list is full, and when the path is appended.  The
    register is moved by one more than the length of the path. *)
Lemma suppressed_read_patches_first (trace_number : Z) (ev : tracee_event)
    (st st1 : tracer_state) (cp : copied) :
  PGOPTIONFILES_READ = 0 →
  file_access_entry trace_number ev st st1 cp →
  is_path cp = true →
  is_option_file (c_str (stored cp)) = true →
  let file_name := delimited (c_str (stored cp)) in
  let patched :=
    called [ptrace_SETREGS
              (patch_registers (registers ev) (1 + strlen (c_str (stored cp))))]
      (called (ptrace_PEEKDATA <$> peeked cp) (called [ptrace_GETREGS] st1)) in
  tracer_iteration trace_number ev st
  = Some (match strstr (file_names_list st) file_name with
          | Some _ => Continue patched
          | None =>
              if PGOPTIONFILES_MAX_FILE_NAMES_LIST_SIZE
                   <=? strlen (file_names_list st) + strlen file_name
              then Break patched
              else Continue (set_file_names_list
                               (strcat (file_names_list st) file_name) patched)
          end).
Proof.
  intros Hread Hentry Hpath Hfile.
  rewrite (tracer_iteration_file_access _ _ _ _ _ Hentry).
  destruct Hentry as (Hwait & _).
  apply resume_and_wait_Continue in Hwait as (Hl & _).
  rewrite filter_and_collect_matching by done.
  cbn zeta. simpl file_names_list. rewrite Hl, Hread. done.
Qed.

(** ** The pass over the delimiters *)

Lemma eliminate_delimiters_step (c next : ascii) (rest out : cstring) :
  eliminate_delimiters (c :: next :: rest) out
  = if negb (Ascii.eqb c PGOPTIONFILES_DELIMITER)
    then eliminate_delimiters (next :: rest) (out ++ [c])
    else if (length out =? 0)%nat then eliminate_delimiters (next :: rest) out
    else if Ascii.eqb next PGOPTIONFILES_DELIMITER
    then eliminate_delimiters (next :: rest) out
    else eliminate_delimiters (next :: rest) (out ++ [c]).
Proof. reflexivity. Qed.







(** ** What a session collects *)

(** An iteration changes the file names list only by appending the
    delimited form of the path that it has handed to the collector, and
    only when the list does not hold that form yet and stays below its
    maximum size. *)
Lemma tracer_iteration_collects (trace_number : Z) (ev : tracee_event)
    (st : tracer_state) (c : control) :
  tracer_iteration trace_number ev st = Some c →
  match matching_path trace_number ev st with
  | None => file_names_list (state_of c) = file_names_list st
  | Some p =>
      p ≠ [] ∧
      ∃ st2,
        file_names_list st2 = file_names_list st ∧
        c = match strstr (file_names_list st) (delimited p) with
            | Some _ => Continue st2
            | None =>
                if PGOPTIONFILES_MAX_FILE_NAMES_LIST_SIZE
                     <=? strlen (file_names_list st) + strlen (delimited p)
                then Break st2
                else Continue (set_file_names_list
                                 (strcat (file_names_list st) (delimited p)) st2)
            end
  end.
Proof.
  unfold tracer_iteration, matching_path.
  pose proof (resume_and_wait_list trace_number ev st) as Hl.
  destruct (resume_and_wait trace_number ev st) as [st1|st1]; simpl in Hl.
  2:{ by intros [= <-]. }
  destruct (Z.eqb_spec trace_number 0) as [->|_].
  { intros [= <-]. simpl. by rewrite initial_stop_list. }
  destruct (trace_number mod 2 =? 1); [|by intros [= <-]].
  unfold syscall_entry.
  destruct (path_argument (registers ev)) as [src|]; [|by intros [= <-]].
  destruct (copy_from_tracee_total (memory ev) src) as (cp & -> & Hlen).
  intros [= <-].
  destruct (is_path cp && is_option_file (c_str (stored cp))) eqn:E.
  - apply andb_true_iff in E as [Hpath Hfile]. split.
    + unfold is_path in Hpath. apply andb_true_iff in Hpath as [Hpos _].
      apply Z.ltb_lt in Hpos. intros Hnil. rewrite Hlen, Hnil in Hpos. done.
    + rewrite filter_and_collect_matching by done. cbv zeta.
      simpl file_names_list. rewrite Hl. eexists. split; [|done].
      by destruct (PGOPTIONFILES_READ =? 0).
  - by rewrite filter_and_collect_other.
Qed.




(** ** The final list *)







(** ** The reader and the memory of the tracee *)

Lemma wrap64_add_l (a b : Z) : wrap64 (wrap64 a + b) = wrap64 (a + b).
Proof. unfold wrap64. apply Zplus_mod_idemp_l. Qed.

Lemma wrap64_idemp (a : Z) : wrap64 (wrap64 a) = wrap64 a.
Proof. unfold wrap64. apply Zmod_mod. Qed.

Lemma ascii_byte_range (b : ascii) : 0 ≤ Z.of_N (N_of_ascii b) < 256.
Proof. pose proof (N_ascii_bounded b). lia. Qed.

Lemma word_byte_0 (b : ascii) (w : Z) :
  word_byte (Z.lor (Z.of_N (N_of_ascii b)) (Z.shiftl w 8)) 0 = b.
Proof.
  unfold word_byte. change (8 * 0) with 0. rewrite Z.shiftr_0_r.
  change 255 with (Z.ones 8). rewrite Z.land_ones by lia.
  pose proof (ascii_byte_range b) as Hb.
  assert (Z.lor (Z.of_N (N_of_ascii b)) (Z.shiftl w 8) mod 2 ^ 8
          = Z.of_N (N_of_ascii b)) as ->.
  { rewrite <- Z.land_ones, Z.land_lor_distr_l, !Z.land_ones by lia.
    rewrite Z.shiftl_mul_pow2, Z.mod_mul by lia.
    rewrite Z.lor_0_r. apply Z.mod_small. change (2 ^ 8) with 256. lia. }
  rewrite N2Z.id. apply ascii_N_embedding.
Qed.

Lemma word_byte_S (b : ascii) (w : Z) (j : Z) :
  0 ≤ j →
  word_byte (Z.lor (Z.of_N (N_of_ascii b)) (Z.shiftl w 8)) (j + 1) = word_byte w j.
Proof.
  intros Hj. unfold word_byte. f_equal. f_equal. f_equal.
  pose proof (ascii_byte_range b) as Hb.
  rewrite Z.shiftr_lor, Z.shiftr_shiftl_r by lia.
  replace (8 * (j + 1) - 8) with (8 * j) by lia.
  rewrite (Z.shiftr_div_pow2 (Z.of_N (N_of_ascii b))) by lia.
  rewrite Z.div_small; [done|].
  split; [lia|]. apply Z.lt_le_trans with (2 ^ 8); [change (2 ^ 8) with 256; lia|].
  apply Z.pow_le_mono_r; lia.
Qed.

(** A word that PTRACE_PEEKDATA returns holds the bytes of the memory. *)
Lemma peek_bytes_lookup (mem : tracee_memory) (n : nat) (addr w : Z) :
  wrap64 addr = addr →
  peek_bytes mem addr n = Some w →
  ∀ j : nat, (j < n)%nat →
    mem (wrap64 (addr + Z.of_nat j)) = Some (word_byte w (Z.of_nat j)).
Proof.
  revert addr w. induction n as [|n IH]; intros addr w Haddr Hw j Hj; [lia|].
  simpl in Hw. destruct (mem addr) as [b|] eqn:Hb; [|done].
  destruct (peek_bytes mem (wrap64 (addr + 1)) n) as [w'|] eqn:Hw'; [|done].
  injection Hw as <-. destruct j as [|j].
  - rewrite Z.add_0_r, Haddr, Hb. by rewrite word_byte_0.
  - rewrite Nat2Z.inj_succ, <- Z.add_1_r, word_byte_S by lia.
    rewrite <- (IH _ _ (wrap64_idemp _) Hw' j) by lia.
    rewrite wrap64_add_l. f_equal. f_equal. lia.
Qed.

Lemma peek_bytes_mapped (mem : tracee_memory) (n : nat) (addr : Z) :
  wrap64 addr = addr →
  (∀ j : nat, (j < n)%nat → is_Some (mem (wrap64 (addr + Z.of_nat j)))) →
  is_Some (peek_bytes mem addr n).
Proof.
  revert addr. induction n as [|n IH]; intros addr Haddr Hmem; [by eexists|].
  simpl. destruct (Hmem O) as [b Hb]; [lia|].
  rewrite Z.add_0_r, Haddr in Hb. rewrite Hb.
  destruct (IH (wrap64 (addr + 1))) as [w ->]; [apply wrap64_idemp| |by eexists].
  intros j Hj. rewrite wrap64_add_l.
  replace (addr + 1 + Z.of_nat j) with (addr + Z.of_nat (S j)) by lia.
  apply Hmem. lia.
Qed.

(** The inner loop stores the bytes of the word, in order, and leaves
    early exactly at the limit or at a NUL. *)
Lemma copy_word_bytes_exact (n : nat) (word : Z) (off : nat) (c : ascii)
    (dest : list ascii) :
  ∃ added,
    (copy_word_bytes n word (Z.of_nat off) c dest).2 = dest ++ added
    ∧ (length added ≤ n)%nat
    ∧ (∀ j : nat, (j < length added)%nat →
         added !! j = Some (word_byte word (Z.of_nat (off + j))))
    ∧ ((length added < n)%nat →
       (copy_word_bytes n word (Z.of_nat off) c dest).1 = zero
       ∧ (PATH_MAX - 1 ≤ Z.of_nat (length (dest ++ added))
          ∨ word_byte word (Z.of_nat (off + length added)) = zero))
    ∧ (length added = n → (0 < n)%nat →
       (copy_word_bytes n word (Z.of_nat off) c dest).1 ≠ zero).
Proof.
  revert off c dest. induction n as [|n IH]; intros off c dest.
  { exists []. rewrite app_nil_r. simpl. repeat split; auto; try lia; done. }
  cbn [copy_word_bytes].
  set (c' := if PATH_MAX - 1 <=? Z.of_nat (length dest) then zero
             else word_byte word (Z.of_nat off)).
  destruct (Ascii.eqb c' zero) eqn:E.
  - apply Ascii.eqb_eq in E. exists []. rewrite app_nil_r. simpl.
    split; [done|]. split; [lia|]. split; [intros; lia|]. split; [|intros; lia].
    intros _. split; [done|]. rewrite Nat.add_0_r. subst c'.
    destruct (Z.leb_spec (PATH_MAX - 1) (Z.of_nat (length dest))); [by left|by right].
  - apply ascii_eqb_false in E.
    assert (c' = word_byte word (Z.of_nat off)) as Hc'.
    { subst c'. by destruct (PATH_MAX - 1 <=? Z.of_nat (length dest)). }
    replace (Z.of_nat off + 1) with (Z.of_nat (S off)) by lia.
    destruct (IH (S off) c' (dest ++ [c'])) as (added & Hd & Hlen & Hbytes & Hearly & Hfull).
    exists (c' :: added). rewrite Hd, <- app_assoc. simpl.
    split; [done|]. split; [lia|]. split; [|split].
    + intros [|j] Hj; simpl.
      * by rewrite Nat.add_0_r, Hc'.
      * rewrite Hbytes by lia. do 3 f_equal. lia.
    + intros Hlt. destruct Hearly as [-> Hstop]; [lia|]. split; [done|].
      rewrite <- app_assoc in Hstop. simpl in Hstop.
      replace (off + S (length added))%nat with (S off + length added)%nat by lia.
      done.
    + intros Hn _. destruct n as [|n].
      * destruct added; [|simpl in Hn; lia]. simpl. done.
      * apply Hfull; lia.
Qed.

Lemma word_addresses_S (src : Z) (wn : Z) (k : nat) :
  (λ i : nat, wrap64 (src + 8 * (wn + Z.of_nat i))) <$> seq 0 (S k)
  = wrap64 (src + 8 * wn)
    :: ((λ i : nat, wrap64 (src + 8 * (wn + 1 + Z.of_nat i))) <$> seq 0 k).
Proof.
  cbn [seq fmap list_fmap]. rewrite Z.add_0_r. f_equal.
  rewrite <- fmap_S_seq, <- list_fmap_compose.
  apply list_fmap_ext. intros _ i _. simpl. do 2 f_equal. lia.
Qed.

(** The words loop: the bytes stored are those of the memory, the words
    read are consecutive, and the loop is left at the limit, at a NUL or
    at a word that cannot be read. *)
Lemma copy_words_exact (fuel : nat) (mem : tracee_memory) (src : Z)
    (wn : nat) (dest : list ascii) (peeks : list Z)
    (dest' : list ascii) (peeks' : list Z) :
  copy_words fuel mem src (Z.of_nat wn) dest peeks = Some (dest', peeks') →
  length dest = (8 * wn)%nat →
  ∃ added (k : nat),
    dest' = dest ++ added
    ∧ (∀ j : nat, (j < length added)%nat →
         mem (wrap64 (src + Z.of_nat (8 * wn + j))) = added !! j)
    ∧ peeks' = peeks ++ ((λ i : nat, wrap64 (src + 8 * (Z.of_nat wn + Z.of_nat i)))
                           <$> seq 0 (S k))
    ∧ (length dest' / 8 = wn + k)%nat
    ∧ (PATH_MAX - 1 ≤ Z.of_nat (length dest')
       ∨ mem (wrap64 (src + Z.of_nat (length dest'))) = Some zero
       ∨ ((length dest' mod 8 = 0)%nat
          ∧ PTRACE_PEEKDATA mem (wrap64 (src + Z.of_nat (length dest'))) = None)).
Proof.
  revert wn dest peeks dest' peeks'.
  induction fuel as [|fuel IH]; intros wn dest peeks dest' peeks'; [done|].
  cbn [copy_words]. intros Hrun Hlen.
  set (addr := wrap64 (src + 8 * Z.of_nat wn)) in *.
  assert (∀ j : nat, wrap64 (addr + Z.of_nat j)
                     = wrap64 (src + Z.of_nat (8 * wn + j))) as Haddr.
  { intros j. subst addr. rewrite wrap64_add_l. f_equal. lia. }
  destruct (PTRACE_PEEKDATA mem addr) as [word|] eqn:Hpeek.
  2:{ injection Hrun as <- <-. exists [], O. rewrite app_nil_r.
      split; [done|]. split; [intros j Hj; simpl in Hj; lia|].
      split; [simpl; by rewrite Z.add_0_r|].
      split; [rewrite Hlen, Nat.add_0_r, Nat.mul_comm; by apply Nat.div_mul|].
      right. right. split; [rewrite Hlen, Nat.mul_comm; by apply Nat.Div0.mod_mul|].
      rewrite Hlen. replace (Z.of_nat (8 * wn)) with (8 * Z.of_nat wn) by lia.
      done. }
  pose proof (peek_bytes_lookup mem 8 addr word (wrap64_idemp _) Hpeek) as Hword.
  destruct (copy_word_bytes_exact 8 word 0 zero dest)
    as (added & Hd & Hn & Hbytes & Hearly & Hfull).
  change (Z.of_nat 0) with 0 in *.
  destruct (copy_word_bytes 8 word 0 zero dest) as [c dest1] eqn:E.
  simpl in Hd, Hearly, Hfull. subst dest1.
  assert (∀ j : nat, (j < length added)%nat →
            mem (wrap64 (src + Z.of_nat (8 * wn + j))) = added !! j) as Hmem.
  { intros j Hj. rewrite <- Haddr, Hword by lia. by rewrite Hbytes. }
  destruct (Ascii.eqb c zero) eqn:Ec.
  - apply Ascii.eqb_eq in Ec. injection Hrun as <- <-.
    assert (length added < 8)%nat as Hlt.
    { destruct (decide (length added = 8)%nat) as [H8|]; [|lia].
      exfalso. apply (Hfull H8); [lia|done]. }
    exists added, O. split; [done|]. split; [done|].
    split; [simpl; by rewrite Z.add_0_r|].
    split.
    { rewrite length_app, Hlen, Nat.add_0_r.
      rewrite (Nat.mul_comm 8 wn), Nat.div_add_l, Nat.div_small by lia. lia. }
    destruct (Hearly Hlt) as [_ [Hcap|Hnul]]; [by left|].
    right. left. rewrite length_app, Hlen, <- Haddr, Hword by lia. by rewrite <- Hnul.
  - apply ascii_eqb_false in Ec.
    assert (length added = 8)%nat as H8.
    { destruct (decide (length added < 8)%nat) as [Hlt|]; [|lia].
      by destruct (Hearly Hlt) as [? _]. }
    replace (Z.of_nat wn + 1) with (Z.of_nat (S wn)) in Hrun by lia.
    destruct (IH (S wn) (dest ++ added) (peeks ++ [addr]) _ _ Hrun)
      as (added2 & k & -> & Hmem2 & -> & Hdiv & Hstop).
    { rewrite length_app. lia. }
    exists (added ++ added2), (S k). rewrite <- !app_assoc.
    rewrite <- app_assoc in Hdiv, Hstop.
    split; [done|]. split.
    { intros j Hj. rewrite length_app in Hj.
      destruct (decide (j < length added)%nat) as [Hlt|Hge].
      - rewrite lookup_app_l by done. by apply Hmem.
      - rewrite lookup_app_r by lia. rewrite <- Hmem2 by lia.
        do 3 f_equal. lia. }
    split.
    { f_equal. rewrite (word_addresses_S src (Z.of_nat wn) (S k)).
      cbn [app]. f_equal.
      apply list_fmap_ext. intros _ i _. cbn beta. do 2 f_equal. lia. }
    split; [rewrite Hdiv; lia|done].
Qed.

(** What the reader returns, in terms of the memory. *)
Lemma copy_from_tracee_exact (mem : tracee_memory) (src : Z) (cp : copied) :
  src ≠ 0 →
  pgoptionfiles_copy_from_tracee mem src = Some cp →
  ∃ path,
    stored cp = path ++ [zero]
    ∧ c_str (stored cp) = path
    ∧ copy_result cp = Z.of_nat (length path)
    ∧ Forall (λ c, c ≠ zero) path
    ∧ memory_bytes mem src (length path) = Some <$> path
    ∧ peeked cp = word_addresses src (S (length path / 8))
    ∧ (PATH_MAX - 1 ≤ Z.of_nat (length path)
       ∨ mem (wrap64 (src + Z.of_nat (length path))) = Some zero
       ∨ ((length path mod 8 = 0)%nat
          ∧ PTRACE_PEEKDATA mem (wrap64 (src + Z.of_nat (length path))) = None)).
Proof.
  intros Hsrc Hcp.
  destruct (copy_from_tracee_returns mem src Hsrc) as (path & peeks & Hcp' & Hnz & _).
  rewrite Hcp in Hcp'. injection Hcp' as ->. exists path.
  cbn [stored copy_result peeked].
  split; [done|]. split; [by apply c_str_terminated|]. split; [done|]. split; [done|].
  revert Hcp. unfold pgoptionfiles_copy_from_tracee.
  destruct (Z.eqb_spec src 0) as [|_]; [done|].
  destruct (copy_words (S (Z.to_nat PATH_MAX)) mem src 0 [] []) as [[dest ps]|] eqn:E;
    [|done].
  intros [= Hdest <- <-]. apply app_inj_tail in Hdest as [-> _].
  change 0 with (Z.of_nat 0) in E.
  destruct (copy_words_exact _ _ _ _ _ _ _ _ E eq_refl)
    as (added & k & Hadd & Hmem & Hpeeks & Hdiv & Hstop).
  rewrite app_nil_l in Hadd, Hpeeks. subst added. rewrite Nat.add_0_l in Hdiv.
  assert (∀ j : nat, (j < length path)%nat →
            mem (wrap64 (src + Z.of_nat j)) = path !! j) as Hmem'
    by (intros j Hj; exact (Hmem j Hj)).
  split; [|split; [|done]].
  - unfold memory_bytes. apply list_eq. intros j.
    rewrite !list_lookup_fmap.
    destruct (decide (j < length path)%nat) as [Hlt|Hge].
    + rewrite lookup_seq_lt by done. cbn [fmap option_fmap option_map Nat.add].
      rewrite (Hmem' j Hlt). destruct (path !! j) eqn:Ej; [done|].
      apply lookup_ge_None in Ej. lia.
    + rewrite lookup_seq_ge by lia. rewrite lookup_ge_None_2 by lia. done.
  - rewrite Hpeeks, Hdiv. unfold word_addresses. apply list_fmap_ext.
    intros _ i _. cbn beta. do 2 f_equal.
Qed.

Lemma memory_bytes_lookup (mem : tracee_memory) (src : Z) (n : nat)
    (l : list ascii) (j : nat) :
  memory_bytes mem src n = Some <$> l → (j < n)%nat →
  mem (wrap64 (src + Z.of_nat j)) = l !! j.
Proof.
  intros H Hj.
  assert (memory_bytes mem src n !! j = (Some <$> l) !! j) as Hl by by rewrite H.
  unfold memory_bytes in Hl. rewrite !list_lookup_fmap, lookup_seq_lt in Hl by done.
  cbn [fmap option_fmap option_map Nat.add] in Hl.
  destruct (l !! j); cbn [fmap option_fmap option_map] in Hl; congruence.
Qed.

(** X1: the string that the reader returns is, byte for byte, what the
    memory of the tracee holds from the remote address on. *)
Theorem reader_bytes_from_memory (mem : tracee_memory) (src : Z) (cp : copied) :
  pgoptionfiles_copy_from_tracee mem src = Some cp →
  memory_bytes mem src (Z.to_nat (copy_result cp)) = Some <$> c_str (stored cp).
Proof.
  intros Hcp. destruct (Z.eq_dec src 0) as [->|Hsrc].
  { injection Hcp as <-. done. }
  destruct (copy_from_tracee_exact mem src cp Hsrc Hcp)
    as (path & _ & -> & -> & _ & Hmem & _).
  by rewrite Nat2Z.id.
Qed.

(** X2: the reader ends only where the string ends, where the limit of
    [PATH_MAX - 1] bytes is reached, or where a word cannot be read; a
    failing read happens at a word boundary only. *)
Theorem reader_stops (mem : tracee_memory) (src : Z) (cp : copied) :
  src ≠ 0 →
  pgoptionfiles_copy_from_tracee mem src = Some cp →
  PATH_MAX - 1 ≤ copy_result cp
  ∨ mem (wrap64 (src + copy_result cp)) = Some zero
  ∨ (copy_result cp mod 8 = 0
     ∧ PTRACE_PEEKDATA mem (wrap64 (src + copy_result cp)) = None).
Proof.
  intros Hsrc Hcp.
  destruct (copy_from_tracee_exact mem src cp Hsrc Hcp)
    as (path & _ & _ & -> & _ & _ & _ & [Hcap|[Hnul|[Hmod Hpeek]]]).
  - by left.
  - right. by left.
  - right. right. split; [|done].
    change 8 with (Z.of_nat 8). by rewrite <- Nat2Z.inj_mod, Hmod.
Qed.

(** X3: the reader reads consecutive words from the remote address on,
    one for every eight bytes returned and one more. *)
Theorem reader_peeks (mem : tracee_memory) (src : Z) (cp : copied) :
  src ≠ 0 →
  pgoptionfiles_copy_from_tracee mem src = Some cp →
  peeked cp = word_addresses src (Z.to_nat (copy_result cp / 8) + 1).
Proof.
  intros Hsrc Hcp.
  destruct (copy_from_tracee_exact mem src cp Hsrc Hcp)
    as (path & _ & _ & -> & _ & _ & -> & _).
  f_equal. change 8 with (Z.of_nat 8). rewrite <- Nat2Z.inj_div, Nat2Z.id. lia.
Qed.

(** The reader on a string that the memory holds whole, the memory being
    given byte by byte. *)
Lemma copy_from_tracee_string (mem : tracee_memory) (src : Z) (s rest : list ascii) :
  src ≠ 0 →
  Forall (λ c, c ≠ zero) s →
  Z.of_nat (length s) ≤ PATH_MAX - 1 →
  length (s ++ zero :: rest) = (8 * (length s / 8 + 1))%nat →
  (∀ j : nat, (j < 8 * (length s / 8 + 1))%nat →
     mem (wrap64 (src + Z.of_nat j)) = (s ++ zero :: rest) !! j) →
  pgoptionfiles_copy_from_tracee mem src
  = Some {| stored := s ++ [zero];
            copy_result := Z.of_nat (length s);
            peeked := word_addresses src (length s / 8 + 1) |}.
Proof.
  intros Hsrc Hnz Hmax Hl Hbyte.
  destruct (copy_from_tracee_total mem src) as (cp & Hcp & _).
  destruct (copy_from_tracee_exact mem src cp Hsrc Hcp)
    as (path & Hst & _ & Hres & Hpnz & Hpath & Hpeeks & Hstop).
  assert (∀ j : nat, (j < length path)%nat →
            mem (wrap64 (src + Z.of_nat j)) = path !! j) as Hpbyte
    by (intros j Hj; by apply (memory_bytes_lookup _ _ _ _ _ Hpath)).
  pose proof (Nat.div_mod_eq (length s) 8) as Hs8.
  pose proof (Nat.mod_upper_bound (length s) 8 ltac:(lia)) as Hs8'.
  assert (length path ≤ length s)%nat as Hle.
  { destruct (decide (length path ≤ length s)%nat) as [|Hgt]; [done|]. exfalso.
    assert (path !! length s = Some zero) as H0.
    { rewrite <- Hpbyte by lia. rewrite Hbyte by lia.
      rewrite lookup_app_r, Nat.sub_diag by lia. done. }
    eapply Forall_lookup_1 in H0; [|done]. done. }
  assert (length path = length s) as Heq.
  { destruct (decide (length path = length s)) as [|Hne]; [done|]. exfalso.
    assert (length path < length s)%nat as Hlt by lia.
    destruct Hstop as [Hcap|[Hnul|[Hmod Hpeek]]].
    - lia.
    - rewrite Hbyte in Hnul by lia. rewrite lookup_app_l in Hnul by lia.
      eapply Forall_lookup_1 in Hnul; [|done]. done.
    - assert (is_Some (PTRACE_PEEKDATA mem (wrap64 (src + Z.of_nat (length path)))))
        as [w Hw]; [|congruence].
      apply peek_bytes_mapped; [apply wrap64_idemp|]. intros j Hj.
      rewrite wrap64_add_l, <- Z.add_assoc, <- Nat2Z.inj_add.
      pose proof (Nat.div_mod_eq (length path) 8) as Hp8.
      assert (length path / 8 ≤ length s / 8)%nat
        by (apply Nat.Div0.div_le_mono; lia).
      rewrite Hbyte by nia. apply lookup_lt_is_Some. nia. }
  assert (path = s) as ->.
  { apply list_eq. intros j.
    destruct (decide (j < length s)%nat) as [Hlt|Hge].
    - rewrite <- Hpbyte by lia. rewrite Hbyte by lia.
      by rewrite lookup_app_l by lia.
    - rewrite !lookup_ge_None_2 by lia. done. }
  rewrite Hcp. destruct cp as [st res ps]. cbn [stored copy_result peeked] in *.
  rewrite Hst, Hres, Hpeeks, Nat.add_1_r. done.
Qed.

(** X4: when the memory holds a string of at most [PATH_MAX - 1] bytes,
    its terminating NUL, and is mapped up to the end of the word that
    holds the NUL, the reader returns exactly that string. *)
Theorem reader_returns_string (mem : tracee_memory) (src : Z) (s rest : list ascii) :
  src ≠ 0 →
  Forall (λ c, c ≠ zero) s →
  Z.of_nat (length s) ≤ PATH_MAX - 1 →
  memory_bytes mem src (8 * (length s / 8 + 1)) = Some <$> (s ++ zero :: rest) →
  pgoptionfiles_copy_from_tracee mem src
  = Some {| stored := s ++ [zero];
            copy_result := Z.of_nat (length s);
            peeked := word_addresses src (length s / 8 + 1) |}.
Proof.
  intros Hsrc Hnz Hmax Hmem.
  apply (copy_from_tracee_string mem src s rest Hsrc Hnz Hmax).
  - rewrite <- (length_fmap Some), <- Hmem. unfold memory_bytes.
    by rewrite length_fmap, length_seq.
  - intros j Hj. by apply (memory_bytes_lookup _ _ _ _ _ Hmem).
Qed.

(** ** What the pass over the delimiters keeps *)

Lemma eliminate_delimiters_kept (s out : cstring) :
  ∃ kept,
    eliminate_delimiters s out = out ++ kept
    ∧ kept `sublist_of` removelast s
    ∧ filter (λ c, c ≠ PGOPTIONFILES_DELIMITER) kept
      = filter (λ c, c ≠ PGOPTIONFILES_DELIMITER) (removelast s).
Proof.
  revert out. induction s as [|c s IH]; intros out.
  { exists []. by rewrite app_nil_r. }
  destruct s as [|next rest].
  { exists []. by rewrite app_nil_r. }
  rewrite eliminate_delimiters_step.
  change (removelast (c :: next :: rest)) with (c :: removelast (next :: rest)).
  destruct (Ascii.eqb_spec c PGOPTIONFILES_DELIMITER) as [->|Hc]; simpl negb; cbv iota.
  - assert (∀ out', (out' = out ∨ out' = out ++ [PGOPTIONFILES_DELIMITER]) →
              ∃ kept,
                eliminate_delimiters (next :: rest) out' = out ++ kept
                ∧ kept `sublist_of` PGOPTIONFILES_DELIMITER :: removelast (next :: rest)
                ∧ filter (λ c, c ≠ PGOPTIONFILES_DELIMITER) kept
                  = filter (λ c, c ≠ PGOPTIONFILES_DELIMITER)
                      (PGOPTIONFILES_DELIMITER :: removelast (next :: rest))) as Hrec.
    { intros out' Hout'. destruct (IH out') as (kept & -> & Hsub & Hfilter).
      rewrite filter_cons_False by (intros H; by apply H).
      destruct Hout' as [->| ->].
      - exists kept. split; [done|]. split; [by apply sublist_cons|done].
      - exists (PGOPTIONFILES_DELIMITER :: kept). rewrite <- app_assoc.
        split; [done|]. split; [by apply sublist_skip|].
        by rewrite filter_cons_False by (intros H; by apply H). }
    destruct (length out =? 0)%nat; [apply Hrec; by left|].
    destruct (Ascii.eqb next PGOPTIONFILES_DELIMITER); apply Hrec; auto.
  - destruct (IH (out ++ [c])) as (kept & -> & Hsub & Hfilter).
    exists (c :: kept). rewrite <- app_assoc. split; [done|].
    split; [by apply sublist_skip|].
    by rewrite !filter_cons_True, Hfilter by done.
Qed.

(** X5: the pass of lines 357-372 never writes the last character of its
    input; of the others it deletes delimiters only, and it keeps the
    order. *)
Theorem eliminate_delimiters_deletes_delimiters (s : cstring) :
  eliminate_delimiters s [] `sublist_of` removelast s
  ∧ filter (λ c, c ≠ PGOPTIONFILES_DELIMITER) (eliminate_delimiters s [])
    = filter (λ c, c ≠ PGOPTIONFILES_DELIMITER) (removelast s).
Proof. by destruct (eliminate_delimiters_kept s []) as (kept & -> & ? & ?). Qed.

Lemma eliminate_delimiters_length (s : cstring) :
  (length (eliminate_delimiters s []) ≤ length s)%nat.
Proof.
  destruct (eliminate_delimiters_kept s []) as (kept & -> & Hsub & _).
  apply sublist_length in Hsub. rewrite app_nil_l.
  rewrite removelast_firstn_len, length_take in Hsub. lia.
Qed.

(** ** How a session ends *)

Ltac unfold_state :=
  unfold set_file_names_list, set_retcode, set_error_list, set_status, called,
    strcat;
  simpl.

(** A loop that ends has run over a number of iterations that went on and
    one that left it. *)
Lemma tracer_loop_ends (evs : list tracee_event) (trace_number : Z)
    (st st' : tracer_state) :
  tracer_loop trace_number evs st = Some st' →
  ∃ pre ev post trace_number' st0,
    evs = pre ++ ev :: post
    ∧ loop_head trace_number pre st = Some (trace_number', st0)
    ∧ tracer_iteration trace_number' ev st0 = Some (Break st').
Proof.
  revert trace_number st. induction evs as [|ev evs IH]; intros tn st; [done|].
  simpl. destruct (tracer_iteration tn ev st) as [[st1|st1]|] eqn:E; [| |done].
  - intros H. destruct (IH _ _ H) as (pre & ev' & post & tn' & st0 & -> & Hpre & Hit).
    exists (ev :: pre), ev', post, tn', st0. simpl. by rewrite E.
  - intros [= <-]. by exists [], ev, evs, tn, st.
Qed.

Lemma loop_head_invariant (P : tracer_state → Prop) (evs : list tracee_event)
    (trace_number : Z) (st : tracer_state) (trace_number' : Z) (st' : tracer_state) :
  (∀ tn ev st0 st1,
     P st0 → tracer_iteration tn ev st0 = Some (Continue st1) → P st1) →
  loop_head trace_number evs st = Some (trace_number', st') →
  P st → P st'.
Proof.
  intros Hstep. revert trace_number st.
  induction evs as [|ev evs IH]; intros tn st; simpl.
  { by intros [= <- <-]. }
  destruct (tracer_iteration tn ev st) as [[st1|]|] eqn:E; try done.
  intros H HP. apply (IH _ _ H). by eapply Hstep.
Qed.

Lemma resume_and_wait_status (trace_number : Z) (ev : tracee_event)
    (st st1 : tracer_state) :
  resume_and_wait trace_number ev st = Continue st1 →
  WIFEXITED (status st1) = false.
Proof.
  unfold resume_and_wait.
  destruct ((0 <? trace_number) && (ptrace_syscall_result ev <? 0)); [done|].
  destruct (negb (PGOPTIONFILES_USE_TIMEOUT =? 0) && (waitpid_result ev =? 0));
    [done|].
  destruct (waitpid_result ev <? 0); [by case_match|].
  case_match; [done|]. by intros [= <-].
Qed.

Lemma filter_and_collect_status (regs : user_regs_struct) (cp : copied)
    (st : tracer_state) :
  status (state_of (filter_and_collect regs cp st)) = status st.
Proof. unfold filter_and_collect. by repeat case_match. Qed.

Lemma tracer_iteration_status (trace_number : Z) (ev : tracee_event)
    (st st' : tracer_state) :
  tracer_iteration trace_number ev st = Some (Continue st') →
  WIFEXITED (status st') = false.
Proof.
  unfold tracer_iteration.
  destruct (resume_and_wait trace_number ev st) as [st1|] eqn:E; [|done].
  apply resume_and_wait_status in E.
  destruct (trace_number =? 0).
  { intros [= H]. by apply initial_stop_Continue in H as ->. }
  destruct (trace_number mod 2 =? 1); [|by intros [= <-]].
  unfold syscall_entry.
  destruct (path_argument (registers ev)) as [src|]; [|by intros [= <-]].
  destruct (pgoptionfiles_copy_from_tracee (memory ev) src) as [cp|]; [|done].
  intros [= H].
  pose proof (filter_and_collect_status (registers ev) cp
                (called (ptrace_PEEKDATA <$> peeked cp)
                   (called [ptrace_GETREGS] st1))) as Hs.
  rewrite H in Hs. simpl in Hs. by rewrite Hs.
Qed.

(** After an iteration that went on, the status is that of a tracee that
    has not exited. *)
Lemma loop_head_status (pre : list tracee_event) (trace_number : Z)
    (st : tracer_state) (trace_number' : Z) (st' : tracer_state) :
  pre ≠ [] →
  loop_head trace_number pre st = Some (trace_number', st') →
  WIFEXITED (status st') = false.
Proof.
  destruct pre as [|ev pre]; [done|]. intros _. simpl.
  destruct (tracer_iteration trace_number ev st) as [[st1|]|] eqn:E; try done.
  intros H. apply (loop_head_invariant _ _ _ _ _ _ ltac:(intros; by eapply tracer_iteration_status) H).
  by eapply tracer_iteration_status.
Qed.

Lemma resume_and_wait_Break (trace_number : Z) (ev : tracee_event)
    (st st' : tracer_state) :
  resume_and_wait trace_number ev st = Break st' →
  ∃ msg,
    error_list st' = error_list st ++ msg
    ∧ ((retcode st' = 0 ∧ msg = [])
       ∨ (retcode st' = -1 ∧ msg = [])
       ∨ (retcode st' = -1 ∧ msg = lit "Error: waitpid timeout.")
       ∨ (retcode st' = -2 ∧ msg = lit "Error: waitpid failed.")).
Proof.
  unfold resume_and_wait, strcat.
  repeat case_match; intros [= <-]; simpl;
    first [ exists []; rewrite app_nil_r; split; [done|]; auto 10
          | eexists; split; [reflexivity|]; auto 10 ].
Qed.

Lemma filter_and_collect_Break (regs : user_regs_struct) (cp : copied)
    (st st' : tracer_state) :
  filter_and_collect regs cp st = Break st' →
  file_names_list st' = file_names_list st
  ∧ ∃ msg,
      error_list st' = error_list st ++ msg
      ∧ ((retcode st' = retcode st ∧ msg = [])
         ∨ (retcode st' = -6 ∧ take 7 msg = lit "Error: ")).
Proof.
  unfold filter_and_collect, strcat.
  destruct (0 <? copy_result cp); [|done].
  destruct (strncmp_is_0 (c_str (stored cp)) (lit "Error: ") 7) eqn:E.
  { intros [= <-]. split; [done|]. eexists. split; [reflexivity|].
    right. split; [done|]. by apply strncmp_is_0_spec in E. }
  repeat case_match; intros [= <-]; (split; [done|]);
    exists []; rewrite app_nil_r; auto.
Qed.

(** What the iteration that leaves the loop does to the return code and
    to the error list; it does not touch the file names list. *)
Lemma tracer_iteration_Break (trace_number : Z) (ev : tracee_event)
    (st st' : tracer_state) :
  tracer_iteration trace_number ev st = Some (Break st') →
  file_names_list st' = file_names_list st
  ∧ ∃ msg,
      error_list st' = error_list st ++ msg
      ∧ ((retcode st' = retcode st ∧ msg = [])
         ∨ (retcode st' = 0 ∧ msg = [])
         ∨ (retcode st' = -1 ∧ msg = [])
         ∨ (retcode st' = -1 ∧ msg = lit "Error: waitpid timeout.")
         ∨ (retcode st' = -2 ∧ msg = lit "Error: waitpid failed.")
         ∨ (retcode st' = -3
            ∧ msg = lit "Error: waitpid status: " ++ printf_x (status st') ++ lit ".")
         ∨ (retcode st' = -6 ∧ take 7 msg = lit "Error: ")).
Proof.
  unfold tracer_iteration.
  pose proof (resume_and_wait_list trace_number ev st) as Hl.
  destruct (resume_and_wait trace_number ev st) as [st1|st1] eqn:E; simpl in Hl.
  2:{ intros [= <-]. split; [done|].
      apply resume_and_wait_Break in E as (msg & Hmsg & Hcases).
      exists msg. split; [done|].
      destruct Hcases as [?|[?|[?|?]]]; auto 10. }
  apply resume_and_wait_Continue in E as (_ & He & Hr).
  destruct (trace_number =? 0).
  { unfold initial_stop. case_match; [|done]. intros [= <-]. split; [done|].
    eexists. simpl. rewrite He. split; [reflexivity|]. auto 10. }
  destruct (trace_number mod 2 =? 1); [|done].
  unfold syscall_entry.
  destruct (path_argument (registers ev)) as [src|]; [|done].
  destruct (pgoptionfiles_copy_from_tracee (memory ev) src) as [cp|]; [|done].
  intros [= H]. apply filter_and_collect_Break in H as (Hl' & msg & Hmsg & Hcases).
  simpl in Hl', Hmsg, Hcases. rewrite Hl', Hl, Hmsg, He. split; [done|].
  exists msg. split; [done|]. rewrite Hr in Hcases.
  destruct Hcases as [?|?]; auto 10.
Qed.

(** X6: the values that the tracer returns and the text that it appends
    to the error list go together: 0 with no text; -1 with no text or the
    timeout message; -2 with the waitpid message; -3 with the status
    message; -6 with a text that starts with "Error: ". *)
Theorem return_codes_and_messages (evs : list tracee_event)
    (names errors : cstring) (st : tracer_state) :
  pgoptionfiles_tracer evs names errors = Some st →
  ∃ msg,
    error_list st = errors ++ msg
    ∧ ((retcode st = 0 ∧ msg = [])
       ∨ (retcode st = -1 ∧ (msg = [] ∨ msg = lit "Error: waitpid timeout."))
       ∨ (retcode st = -2 ∧ msg = lit "Error: waitpid failed.")
       ∨ (retcode st = -3
          ∧ msg = lit "Error: waitpid status: " ++ printf_x (status st) ++ lit ".")
       ∨ (retcode st = -6 ∧ take 7 msg = lit "Error: ")).
Proof.
  unfold pgoptionfiles_tracer.
  destruct (tracer_loop 0 evs (initial_state names errors)) as [st1|] eqn:E; [|done].
  intros [= <-]. simpl.
  apply tracer_loop_ends in E as (pre & ev & post & tn & st0 & _ & Hpre & Hit).
  apply loop_head_keeps in Hpre as [He Hr]. simpl in He, Hr.
  apply tracer_iteration_Break in Hit as (_ & msg & Hmsg & Hcases).
  exists msg. rewrite Hmsg, He. split; [done|]. rewrite Hr in Hcases.
  destruct Hcases as [?|[?|[[-> ->]|[[-> ->]|[?|[?|?]]]]]]; auto 10.
Qed.

(** X7: when PTRACE_SYSCALL fails, the tracer returns -1 at once: it does
    not wait, sends no signal and appends nothing to the error list. *)
Theorem ptrace_syscall_failure (pre : list tracee_event) (ev : tracee_event)
    (post : list tracee_event) (names errors : cstring)
    (trace_number : Z) (st : tracer_state) :
  loop_head 0 pre (initial_state names errors) = Some (trace_number, st) →
  0 < trace_number →
  ptrace_syscall_result ev < 0 →
  pgoptionfiles_tracer (pre ++ ev :: post) names errors
  = Some {| file_names_list := eliminate_delimiters (file_names_list st) [];
            error_list := errors;
            retcode := -1;
            status := status st;
            calls := calls st ++ [ptrace_SYSCALL] |}.
Proof.
  intros Hpre Htn Hsys.
  pose proof (loop_head_keeps _ _ _ _ _ Hpre) as [He _]. simpl in He.
  unfold pgoptionfiles_tracer. rewrite (tracer_loop_app _ _ _ _ _ _ Hpre).
  simpl tracer_loop. unfold tracer_iteration, resume_and_wait.
  destruct (Z.ltb_spec 0 trace_number) as [_|]; [|lia].
  destruct (Z.ltb_spec (ptrace_syscall_result ev) 0) as [_|]; [|lia].
  unfold_state. by rewrite He.
Qed.

(** X8: when waitpid fails after the tracee has stopped at least once,
    the tracer returns -2 and appends "Error: waitpid failed."; it sends
    no signal. *)
Theorem waitpid_failure (pre : list tracee_event) (ev : tracee_event)
    (post : list tracee_event) (names errors : cstring)
    (trace_number : Z) (st : tracer_state) :
  pre ≠ [] →
  loop_head 0 pre (initial_state names errors) = Some (trace_number, st) →
  0 ≤ ptrace_syscall_result ev →
  waitpid_result ev < 0 →
  pgoptionfiles_tracer (pre ++ ev :: post) names errors
  = Some {| file_names_list := eliminate_delimiters (file_names_list st) [];
            error_list := errors ++ lit "Error: waitpid failed.";
            retcode := -2;
            status := status st;
            calls := calls st
                     ++ (if 0 <? trace_number then [ptrace_SYSCALL] else [])
                     ++ [waitpid] |}.
Proof.
  intros Hne Hpre Hsys Hwait.
  pose proof (loop_head_keeps _ _ _ _ _ Hpre) as [He _]. simpl in He.
  pose proof (loop_head_status _ _ _ _ _ Hne Hpre) as Hst.
  unfold pgoptionfiles_tracer. rewrite (tracer_loop_app _ _ _ _ _ _ Hpre).
  simpl tracer_loop. unfold tracer_iteration, resume_and_wait.
  destruct (Z.ltb_spec (ptrace_syscall_result ev) 0) as [|_]; [lia|].
  rewrite andb_false_r.
  destruct (Z.ltb_spec 0 (waitpid_result ev)) as [|_]; [lia|].
  destruct (Z.eqb_spec (waitpid_result ev) 0) as [|_]; [lia|].
  rewrite andb_false_r.
  destruct (Z.ltb_spec (waitpid_result ev) 0) as [_|]; [|lia].
  destruct (0 <? trace_number); simpl; rewrite Hst; unfold_state;
    rewrite He, <- ?app_assoc; done.
Qed.

(** X9: when the first waitpid fails, [status] still holds its initial 0,
    which WIFEXITED takes for an exit: the tracer returns 0 and appends
    nothing to the error list. *)
Theorem first_waitpid_failure (ev : tracee_event) (post : list tracee_event)
    (names errors : cstring) :
  waitpid_result ev < 0 →
  pgoptionfiles_tracer (ev :: post) names errors
  = Some {| file_names_list := eliminate_delimiters names [];
            error_list := errors;
            retcode := 0;
            status := 0;
            calls := [waitpid] |}.
Proof.
  intros Hwait.
  unfold pgoptionfiles_tracer, tracer_loop, tracer_iteration, resume_and_wait.
  simpl.
  destruct (Z.ltb_spec 0 (waitpid_result ev)) as [|_]; [lia|].
  destruct (Z.eqb_spec (waitpid_result ev) 0) as [|_]; [lia|].
  rewrite andb_false_r.
  destruct (Z.ltb_spec (waitpid_result ev) 0) as [_|]; [|lia].
  by unfold_state.
Qed.

(** X10: with the timeout loop compiled in, when the tracee has still not
    changed state at the end of the loop, the tracer returns -1 and
    appends "Error: waitpid timeout."; among the calls of this iteration
    there is one signal, SIGTERM, and no write of registers, and the last
    call is a waitpid, that of line 278.  The list is the one collected
    so far, with its delimiters normalized. *)
Theorem waitpid_timeout (pre : list tracee_event) (ev : tracee_event)
    (post : list tracee_event) (names errors : cstring)
    (trace_number : Z) (st : tracer_state) :
  PGOPTIONFILES_USE_TIMEOUT ≠ 0 →
  loop_head 0 pre (initial_state names errors) = Some (trace_number, st) →
  0 ≤ ptrace_syscall_result ev →
  waitpid_result ev = 0 →
  ∃ st' made,
    pgoptionfiles_tracer (pre ++ ev :: post) names errors = Some st'
    ∧ retcode st' = -1
    ∧ error_list st' = errors ++ lit "Error: waitpid timeout."
    ∧ file_names_list st' = eliminate_delimiters (file_names_list st) []
    ∧ calls st' = calls st ++ made
    ∧ signals_of made = [SIGTERM]
    ∧ register_writes_of made = []
    ∧ last made = Some waitpid.
Proof.
  intros Hmode Hpre Hsys Hwait.
  pose proof (loop_head_keeps _ _ _ _ _ Hpre) as [He _]. simpl in He.
  unfold pgoptionfiles_tracer. rewrite (tracer_loop_app _ _ _ _ _ _ Hpre).
  simpl tracer_loop. unfold tracer_iteration, resume_and_wait.
  destruct (Z.ltb_spec (ptrace_syscall_result ev) 0) as [|_]; [lia|].
  rewrite andb_false_r, Hwait.
  destruct (Z.eqb_spec PGOPTIONFILES_USE_TIMEOUT 0) as [|_]; [done|].
  destruct (0 <? trace_number); unfold_state; rewrite He.
  - eexists _, [ptrace_SYSCALL; waitpid; kill SIGTERM; waitpid].
    split; [reflexivity|]. simpl. by rewrite <- !app_assoc.
  - eexists _, [waitpid; kill SIGTERM; waitpid].
    split; [reflexivity|]. simpl. by rewrite <- !app_assoc.
Qed.

Lemma resume_and_wait_calls (trace_number : Z) (ev : tracee_event)
    (st st1 : tracer_state) :
  resume_and_wait trace_number ev st = Continue st1 →
  calls st1
  = calls st ++ (if 0 <? trace_number then [ptrace_SYSCALL] else []) ++ [waitpid].
Proof.
  unfold resume_and_wait.
  repeat case_match; intros [= <-]; unfold_state; by rewrite <- ?app_assoc.
Qed.

(** X11: at the first stop and at the stops with an even trace number,
    which are the syscall exits, the tracer looks neither at the
    registers nor at the memory of the tracee; when the loop goes on, the
    lists are as before and the tracee was only resumed and waited for. *)
Theorem exit_stops_not_inspected (trace_number : Z) (ev ev' : tracee_event)
    (st : tracer_state) :
  trace_number mod 2 = 0 →
  ptrace_syscall_result ev' = ptrace_syscall_result ev →
  waitpid_result ev' = waitpid_result ev →
  wstatus ev' = wstatus ev →
  tracer_iteration trace_number ev' st = tracer_iteration trace_number ev st
  ∧ ∀ st', tracer_iteration trace_number ev st = Some (Continue st') →
      file_names_list st' = file_names_list st
      ∧ error_list st' = error_list st
      ∧ calls st'
        = calls st ++ (if 0 <? trace_number then [ptrace_SYSCALL] else [])
            ++ [waitpid].
Proof.
  intros Heven Hsys Hwait Hstatus.
  assert ((trace_number mod 2 =? 1) = false) as Hodd by (apply Z.eqb_neq; lia).
  split.
  { unfold tracer_iteration, resume_and_wait. by rewrite Hsys, Hwait, Hstatus, Hodd. }
  intros st'. unfold tracer_iteration. rewrite Hodd.
  destruct (resume_and_wait trace_number ev st) as [st1|] eqn:E; [|done].
  pose proof (resume_and_wait_calls _ _ _ _ E) as Hcalls.
  apply resume_and_wait_Continue in E as (Hl & He & _).
  assert (st' = st1 → file_names_list st' = file_names_list st
                      ∧ error_list st' = error_list st
                      ∧ calls st'
                        = calls st ++ (if 0 <? trace_number then [ptrace_SYSCALL] else [])
                            ++ [waitpid]) as Hst by (by intros ->).
  destruct (trace_number =? 0).
  - intros [= H]. by apply Hst, initial_stop_Continue.
  - intros [= <-]. by apply Hst.
Qed.

(** ** The calls of a session *)

Lemma register_writes_of_app (cs1 cs2 : list call) :
  register_writes_of (cs1 ++ cs2) = register_writes_of cs1 ++ register_writes_of cs2.
Proof. apply omap_app. Qed.

Lemma signals_of_app (cs1 cs2 : list call) :
  signals_of (cs1 ++ cs2) = signals_of cs1 ++ signals_of cs2.
Proof. apply omap_app. Qed.

Lemma register_writes_of_peeks (addrs : list Z) :
  register_writes_of (ptrace_PEEKDATA <$> addrs) = [].
Proof. by induction addrs. Qed.

Lemma signals_of_peeks (addrs : list Z) : signals_of (ptrace_PEEKDATA <$> addrs) = [].
Proof. by induction addrs. Qed.

(** Resuming and waiting writes no registers, and sends a signal only
    when the timeout loop has given up. *)
Lemma resume_and_wait_new_calls (trace_number : Z) (ev : tracee_event)
    (st : tracer_state) :
  ∃ new,
    calls (state_of (resume_and_wait trace_number ev st)) = calls st ++ new
    ∧ register_writes_of new = []
    ∧ (signals_of new = []
       ∨ (signals_of new = [SIGTERM]
          ∧ PGOPTIONFILES_USE_TIMEOUT ≠ 0
          ∧ ∃ st', resume_and_wait trace_number ev st = Break st'
                   ∧ retcode st' = -1)).
Proof.
  unfold resume_and_wait.
  destruct ((0 <? trace_number) && (ptrace_syscall_result ev <? 0)).
  { exists [ptrace_SYSCALL]. auto. }
  destruct (Z.eqb_spec PGOPTIONFILES_USE_TIMEOUT 0) as [Hmode|Hmode]; simpl negb.
  - rewrite andb_false_l.
    exists ((if 0 <? trace_number then [ptrace_SYSCALL] else []) ++ [waitpid]).
    repeat case_match; unfold_state; rewrite <- ?app_assoc; auto.
  - rewrite andb_true_l. destruct (waitpid_result ev =? 0).
    + exists ((if 0 <? trace_number then [ptrace_SYSCALL] else [])
              ++ [waitpid; kill SIGTERM; waitpid]).
      repeat case_match; unfold_state; rewrite <- ?app_assoc;
        (split; [done|]); (split; [done|]); right; eauto 6.
    + exists ((if 0 <? trace_number then [ptrace_SYSCALL] else []) ++ [waitpid]).
      repeat case_match; unfold_state; rewrite <- ?app_assoc; auto.
Qed.

Lemma initial_stop_new_calls (st : tracer_state) :
  ∃ new,
    calls (state_of (initial_stop st)) = calls st ++ new
    ∧ register_writes_of new = []
    ∧ (signals_of new = []
       ∨ (signals_of new = [SIGKILL]
          ∧ ∃ st', initial_stop st = Break st' ∧ retcode st' = -3)).
Proof.
  unfold initial_stop. case_match.
  - exists [kill SIGKILL]. unfold_state. eauto 8.
  - exists []. by rewrite app_nil_r; auto.
Qed.

(** The collector writes the registers once for a path that has passed
    the filter, in suppressed-read mode, and makes no other call. *)
Lemma filter_and_collect_new_calls (regs : user_regs_struct) (cp : copied)
    (st : tracer_state) :
  calls (state_of (filter_and_collect regs cp st))
  = calls st
    ++ (if is_path cp && is_option_file (c_str (stored cp))
           && (PGOPTIONFILES_READ =? 0)
        then [ptrace_SETREGS
                (patch_registers regs (1 + strlen (c_str (stored cp))))]
        else []).
Proof.
  destruct (is_path cp && is_option_file (c_str (stored cp))) eqn:E.
  - apply andb_true_iff in E as [Hpath Hfile].
    rewrite filter_and_collect_matching by done. cbv zeta. rewrite andb_true_l.
    destruct (PGOPTIONFILES_READ =? 0); repeat case_match; unfold_state;
      by rewrite ?app_nil_r.
  - rewrite andb_false_l, app_nil_r. revert E.
    unfold is_path, filter_and_collect, is_option_file.
    rewrite c_str_cons_c_str.
    destruct (0 <? copy_result cp); [|done].
    destruct (strncmp_is_0 (c_str (stored cp)) (lit "Error: ") 7); [done|].
    simpl andb. rewrite bool_decide_eq_false.
    destruct (strstr (c_str (PGOPTIONFILES_DELIMITER :: stored cp)) (lit "my.cnf"))
      eqn:E; [|done].
    intros []. by eexists.
Qed.

(** The calls of one iteration: the registers written and the signals
    sent. *)
Lemma tracer_iteration_new_calls (trace_number : Z) (ev : tracee_event)
    (st : tracer_state) (c : control) :
  tracer_iteration trace_number ev st = Some c →
  register_writes_of (calls (state_of c))
  = register_writes_of (calls st)
    ++ (if PGOPTIONFILES_READ =? 0
        then match matching_path trace_number ev st with
             | Some p => [patch_registers (registers ev) (1 + strlen p)]
             | None => []
             end
        else [])
  ∧ (signals_of (calls (state_of c)) = signals_of (calls st)
     ∨ ∃ st', c = Break st'
         ∧ ((signals_of (calls st') = signals_of (calls st) ++ [SIGTERM]
             ∧ retcode st' = -1 ∧ PGOPTIONFILES_USE_TIMEOUT ≠ 0)
            ∨ (signals_of (calls st') = signals_of (calls st) ++ [SIGKILL]
               ∧ retcode st' = -3))).
Proof.
  unfold tracer_iteration, matching_path.
  destruct (resume_and_wait_new_calls trace_number ev st)
    as (new & Hcalls & Hregs & Hsig).
  destruct (resume_and_wait trace_number ev st) as [st1|st1] eqn:E; simpl in Hcalls.
  2:{ intros [= <-]. simpl. rewrite Hcalls, register_writes_of_app, signals_of_app, Hregs.
      split; [by destruct (PGOPTIONFILES_READ =? 0)|].
      destruct Hsig as [->|(Hnew & Hmode & st' & [= <-] & Hret)].
      - left. by rewrite app_nil_r.
      - right. exists st1. split; [done|]. left.
        by rewrite Hcalls, signals_of_app, Hnew. }
  assert (signals_of new = []) as Hnosig.
  { by destruct Hsig as [?|(_ & _ & st' & [=] & _)]. }
  assert (register_writes_of (calls st1) = register_writes_of (calls st)
          ∧ signals_of (calls st1) = signals_of (calls st)) as [Hr1 Hs1].
  { by rewrite Hcalls, register_writes_of_app, signals_of_app, Hregs, Hnosig,
      !app_nil_r. }
  destruct (Z.eqb_spec trace_number 0) as [->|_].
  { intros [= <-]. change (0 mod 2 =? 1) with false. cbv iota.
    destruct (initial_stop_new_calls st1) as (new2 & Hcalls2 & Hregs2 & Hsig2).
    rewrite Hcalls2, register_writes_of_app, signals_of_app, Hregs2, Hr1, Hs1.
    split; [by destruct (PGOPTIONFILES_READ =? 0)|].
    destruct Hsig2 as [->|(Hnew & st' & Hst' & Hret)].
    - left. by rewrite app_nil_r.
    - right. exists st'. split; [done|]. right. split; [|done].
      by rewrite Hst' in Hcalls2; simpl in Hcalls2;
        rewrite Hcalls2, signals_of_app, Hs1, Hnew. }
  destruct (trace_number mod 2 =? 1).
  2:{ intros [= <-]. simpl. rewrite Hr1, Hs1.
      split; [by destruct (PGOPTIONFILES_READ =? 0); rewrite app_nil_r|by left]. }
  unfold syscall_entry.
  destruct (path_argument (registers ev)) as [src|].
  2:{ intros [= <-]. unfold_state.
      rewrite register_writes_of_app, signals_of_app, Hr1, Hs1. simpl.
      split; [by destruct (PGOPTIONFILES_READ =? 0)|left; by rewrite app_nil_r]. }
  destruct (pgoptionfiles_copy_from_tracee (memory ev) src) as [cp|]; [|done].
  intros [= <-]. rewrite filter_and_collect_new_calls. unfold_state.
  rewrite !register_writes_of_app, !signals_of_app, Hr1, Hs1.
  rewrite register_writes_of_peeks, signals_of_peeks. simpl.
  split.
  - destruct (is_path cp && is_option_file (c_str (stored cp)));
      destruct (PGOPTIONFILES_READ =? 0); simpl; by rewrite ?app_nil_r.
  - left. destruct (is_path cp && is_option_file (c_str (stored cp))
                    && (PGOPTIONFILES_READ =? 0)); simpl; by rewrite ?app_nil_r.
Qed.

Lemma tracer_loop_register_writes (evs : list tracee_event) (trace_number : Z)
    (st st' : tracer_state) :
  tracer_loop trace_number evs st = Some st' →
  register_writes_of (calls st')
  = register_writes_of (calls st)
    ++ (if PGOPTIONFILES_READ =? 0 then register_patches trace_number evs st else []).
Proof.
  revert trace_number st. induction evs as [|ev evs IH]; intros tn st; [done|].
  simpl. destruct (tracer_iteration tn ev st) as [c|] eqn:E; [|done].
  apply tracer_iteration_new_calls in E as [E _].
  destruct c as [st1|st1]; simpl in E.
  - intros Hloop. rewrite (IH _ _ Hloop), E.
    destruct (PGOPTIONFILES_READ =? 0); by rewrite <- ?app_assoc.
  - intros [= <-]. rewrite E. by rewrite app_nil_r.
Qed.

(** X12: the registers of the tracee are written only in suppressed-read
    mode, and there once for every path handed to the collector and for
    nothing else, in the order of the stops: the registers of the stop
    with the path argument moved by [1 + strlen path]. *)
Theorem session_register_writes (evs : list tracee_event) (names errors : cstring)
    (st : tracer_state) :
  pgoptionfiles_tracer evs names errors = Some st →
  register_writes_of (calls st)
  = if PGOPTIONFILES_READ =? 0
    then register_patches 0 evs (initial_state names errors)
    else [].
Proof.
  unfold pgoptionfiles_tracer.
  destruct (tracer_loop 0 evs (initial_state names errors)) as [st0|] eqn:E; [|done].
  intros [= <-]. simpl. by rewrite (tracer_loop_register_writes _ _ _ _ E).
Qed.

(** X13: a session sends at most one signal: SIGTERM after a waitpid that
    timed out, when it returns -1, or SIGKILL after a wrong first stop,
    when it returns -3. *)
Theorem session_signals (evs : list tracee_event) (names errors : cstring)
    (st : tracer_state) :
  pgoptionfiles_tracer evs names errors = Some st →
  signals_of (calls st) = []
  ∨ (signals_of (calls st) = [SIGTERM] ∧ retcode st = -1
     ∧ PGOPTIONFILES_USE_TIMEOUT ≠ 0)
  ∨ (signals_of (calls st) = [SIGKILL] ∧ retcode st = -3).
Proof.
  unfold pgoptionfiles_tracer.
  destruct (tracer_loop 0 evs (initial_state names errors)) as [st0|] eqn:E; [|done].
  intros [= <-]. simpl.
  apply tracer_loop_ends in E as (pre & ev & post & tn & st1 & _ & Hhead & Hit).
  assert (signals_of (calls st1) = []) as Hnone.
  { eapply (loop_head_invariant (λ s, signals_of (calls s) = []));
      [|exact Hhead|done].
    intros tn0 ev0 s0 s1 Hs0 Hstep.
    apply tracer_iteration_new_calls in Hstep as [_ [Hsame|(s' & [=] & _)]].
    simpl in Hsame. by rewrite Hsame. }
  apply tracer_iteration_new_calls in Hit as [_ [Hsame|(s' & [= <-] & Hsig)]].
  - left. simpl in Hsame. by rewrite Hsame.
  - rewrite Hnone in Hsig. simpl in Hsig.
    destruct Hsig as [(? & ? & ?)|[? ?]]; auto.
Qed.

(** ** The size of the list *)

(** X14: the list never outgrows its buffer: when the list that the caller
    passes is shorter than PGOPTIONFILES_MAX_FILE_NAMES_LIST_SIZE, so is the
    list that the tracer returns. *)
Theorem final_list_fits (evs : list tracee_event) (names errors : cstring)
    (st : tracer_state) :
  strlen names < PGOPTIONFILES_MAX_FILE_NAMES_LIST_SIZE →
  pgoptionfiles_tracer evs names errors = Some st →
  strlen (file_names_list st) < PGOPTIONFILES_MAX_FILE_NAMES_LIST_SIZE.
Proof.
  intros Hnames. unfold pgoptionfiles_tracer.
  destruct (tracer_loop 0 evs (initial_state names errors)) as [st0|] eqn:E; [|done].
  intros [= <-]. simpl.
  apply tracer_loop_ends in E as (pre & ev & post & tn & st1 & _ & Hhead & Hit).
  apply tracer_iteration_Break in Hit as [Hlist _].
  pose proof (eliminate_delimiters_length (file_names_list st0)) as Hlen.
  enough (strlen (file_names_list st1) < PGOPTIONFILES_MAX_FILE_NAMES_LIST_SIZE).
  { rewrite <- Hlist in *. unfold strlen in *. lia. }
  eapply (loop_head_invariant
            (λ s, strlen (file_names_list s) < PGOPTIONFILES_MAX_FILE_NAMES_LIST_SIZE));
    [|exact Hhead|done].
  intros tn0 ev0 s0 s1 Hs0 Hstep. apply tracer_iteration_collects in Hstep.
  destruct (matching_path tn0 ev0 s0) as [p|]; simpl in Hstep.
  2:{ by rewrite Hstep. }
  destruct Hstep as (_ & st2 & Hl & Hc).
  destruct (strstr (file_names_list s0) (delimited p)).
  { injection Hc as ->. by rewrite Hl. }
  destruct (Z.leb_spec PGOPTIONFILES_MAX_FILE_NAMES_LIST_SIZE
              (strlen (file_names_list s0) + strlen (delimited p))); [done|].
  injection Hc as ->. simpl. unfold strcat, strlen in *.
  rewrite length_app. lia.
Qed.

(** ** The list as a function of the paths *)







(** ** The tracee *)

Ltac not_a_call H :=
  simpl in H;
  repeat (apply elem_of_cons in H as [H|H]; [discriminate H|]);
  by apply elem_of_nil in H.

(** The tracee either runs to the end of its work, or ends in
    [pgoptionfiles_tracee_error] with one of its messages, having opened
    no file itself before. *)
Lemma tracee_ends (ans : library_answers) (argv1 : cstring) :
  (stdout (pgoptionfiles_tracee ans argv1) = []
   ∧ exit_code (pgoptionfiles_tracee ans argv1) = EXIT_SUCCESS
   ∧ ∀ path, tracee_fopen path ∉ tracee_calls (pgoptionfiles_tracee ans argv1))
  ∨ ∃ message made,
      pgoptionfiles_tracee ans argv1 = pgoptionfiles_tracee_error ans message made
      ∧ take 7 message = lit "Error: "
      ∧ Forall (λ c, c ≠ zero) message
      ∧ strlen message ≤ 80
      ∧ ∀ path, tracee_fopen path ∉ made.
Proof.
  unfold pgoptionfiles_tracee.
  repeat match goal with
         | |- context [if ?b then _ else _] => destruct b
         end;
    first
      [ left; split; [done|]; split; [done|]; intros path H; not_a_call H
      | right; eexists _, _; split; [reflexivity|]; split; [reflexivity|];
        split; [apply (bool_decide_unpack _); vm_compute; exact I|];
        split; [vm_compute; discriminate|]; intros path H; not_a_call H ].
Qed.

(** X16: the tracee opens a file itself only to report an error: the name
    starts with "Error: ", holds no NUL and at most 80 characters; the
    open is the last thing the tracee does but for the check that the
    file does not exist; nothing is printed, and the exit status is
    EXIT_SUCCESS only when the file could be opened and then is not
    there. *)
Theorem tracee_opens_only_to_report (ans : library_answers) (argv1 message : cstring) :
  tracee_fopen message ∈ tracee_calls (pgoptionfiles_tracee ans argv1) →
  PGOPTIONFILES_TRACEE_ONLY ≠ 1
  ∧ take 7 message = lit "Error: "
  ∧ Forall (λ c, c ≠ zero) message
  ∧ strlen message ≤ 80
  ∧ stdout (pgoptionfiles_tracee ans argv1) = []
  ∧ exit_code (pgoptionfiles_tracee ans argv1)
    = (if (fopen_result ans message =? 0) || (access_result ans message =? 0)
       then EXIT_FAILURE else EXIT_SUCCESS)
  ∧ ∃ made,
      tracee_calls (pgoptionfiles_tracee ans argv1)
      = made ++ tracee_fopen message
                :: (if fopen_result ans message =? 0 then []
                    else [tracee_access message])
      ∧ ∀ path, tracee_fopen path ∉ made.
Proof.
  destruct (tracee_ends ans argv1)
    as [(_ & _ & Hnone)|(m & made & -> & Hm & Hnz & Hlen & Hmade)].
  { intros H. by apply Hnone in H. }
  unfold pgoptionfiles_tracee_error.
  destruct (Z.eqb_spec PGOPTIONFILES_TRACEE_ONLY 1) as [|Hmode]; simpl.
  { intros H. by apply Hmade in H. }
  assert (∀ tail,
            tracee_fopen message ∈ made ++ tracee_fopen m :: tail →
            (∀ path, tracee_fopen path ∉ tail) → message = m) as Hsame.
  { intros tail H Htail.
    apply elem_of_app in H as [H|H]; [by apply Hmade in H|].
    apply elem_of_cons in H as [[= ->]|H]; [done|]. by apply Htail in H. }
  destruct (fopen_result ans m =? 0) eqn:Hopen; simpl.
  - intros H. apply Hsame in H as ->; [|intros path H'; not_a_call H'].
    rewrite Hopen. simpl. eauto 10.
  - destruct (access_result ans m =? 0) eqn:Haccess; simpl;
      intros H; (apply Hsame in H as ->; [|intros path H'; not_a_call H']);
      rewrite Hopen, Haccess; simpl; eauto 10.
Qed.

(** X17: built with PGOPTIONFILES_TRACEE_ONLY == 1, the tracee makes no
    ptrace call, does not stop itself and opens no file; it prints
    nothing and exits with EXIT_SUCCESS, or prints one message that
    starts with "Error: ", and a newline, and exits with EXIT_FAILURE. *)
Theorem tracee_only_prints (ans : library_answers) (argv1 : cstring) :
  PGOPTIONFILES_TRACEE_ONLY = 1 →
  (tracee_ptrace_TRACEME ∉ tracee_calls (pgoptionfiles_tracee ans argv1))
  ∧ (∀ sig, tracee_raise sig ∉ tracee_calls (pgoptionfiles_tracee ans argv1))
  ∧ (∀ path, tracee_fopen path ∉ tracee_calls (pgoptionfiles_tracee ans argv1))
  ∧ ((stdout (pgoptionfiles_tracee ans argv1) = []
      ∧ exit_code (pgoptionfiles_tracee ans argv1) = EXIT_SUCCESS)
     ∨ ∃ message,
         take 7 message = lit "Error: "
         ∧ stdout (pgoptionfiles_tracee ans argv1) = message ++ [newline]
         ∧ exit_code (pgoptionfiles_tracee ans argv1) = EXIT_FAILURE).
Proof.
  intros Hmode.
  assert ((tracee_ptrace_TRACEME ∉ tracee_calls (pgoptionfiles_tracee ans argv1))
          ∧ ∀ sig, tracee_raise sig ∉ tracee_calls (pgoptionfiles_tracee ans argv1))
    as [Hptrace Hraise].
  { unfold pgoptionfiles_tracee, pgoptionfiles_tracee_error. rewrite Hmode.
    change (1 =? 0) with false. change (1 =? 1) with true. cbv iota. simpl andb.
    cbv iota.
    repeat match goal with
           | |- context [if ?b then _ else _] => destruct b
           end;
      (split; [intros H|intros sig H]; not_a_call H). }
  split; [done|]. split; [done|].
  destruct (tracee_ends ans argv1)
    as [(Hout & Hcode & Hnone)|(m & made & -> & Hm & Hnz & Hlen & Hmade)].
  { auto. }
  unfold pgoptionfiles_tracee_error. rewrite Hmode. change (1 =? 1) with true.
  simpl. split; [done|]. right. by exists m.
Qed.

(** ** The tracee, the tracer and [main] together *)

(** X18: an error that the tracee reports reaches the caller of the
    tracer: when the tracee opens [message], PATH_MAX is above 80, and the
    tracer meets the entry of a monitored syscall whose path argument
    points at [message] in the memory of the tracee, the tracer returns
    -6 and has appended [message] to the error list. *)
Theorem tracee_error_reaches_tracer (ans : library_answers) (argv1 message : cstring)
    (pre : list tracee_event) (ev : tracee_event) (post : list tracee_event)
    (names errors : cstring) (trace_number : Z) (st st1 : tracer_state)
    (src : Z) (rest : list ascii) :
  tracee_fopen message ∈ tracee_calls (pgoptionfiles_tracee ans argv1) →
  80 < PATH_MAX →
  loop_head 0 pre (initial_state names errors) = Some (trace_number, st) →
  resume_and_wait trace_number ev st = Continue st1 →
  trace_number mod 2 = 1 →
  path_argument (registers ev) = Some src →
  src ≠ 0 →
  memory_bytes (memory ev) src (8 * (length message / 8 + 1))
  = Some <$> (message ++ zero :: rest) →
  ∃ st',
    pgoptionfiles_tracer (pre ++ ev :: post) names errors = Some st'
    ∧ retcode st' = -6
    ∧ error_list st' = errors ++ message
    ∧ file_names_list st' = eliminate_delimiters (file_names_list st) [].
Proof.
  intros Hopen Hmax Hpre Hwait Hodd Harg Hsrc Hmem.
  destruct (tracee_ends ans argv1)
    as [(_ & _ & Hnone)|(m & made & Hend & Hm & Hnz & Hlen & Hmade)].
  { by apply Hnone in Hopen. }
  assert (message = m) as ->.
  { rewrite Hend in Hopen. unfold pgoptionfiles_tracee_error in Hopen.
    repeat case_match; simpl in Hopen;
      try (by apply Hmade in Hopen);
      (apply elem_of_app in Hopen as [Hopen|Hopen]; [by apply Hmade in Hopen|]);
      (apply elem_of_cons in Hopen as [[= ->]|Hopen]; [done|]); not_a_call Hopen. }
  unfold strlen in Hlen.
  assert (pgoptionfiles_copy_from_tracee (memory ev) src
          = Some {| stored := m ++ [zero];
                    copy_result := Z.of_nat (length m);
                    peeked := word_addresses src (length m / 8 + 1) |}) as Hcp.
  { apply (copy_from_tracee_string (memory ev) src m rest Hsrc Hnz); [lia| |].
    - rewrite <- (length_fmap Some), <- Hmem. unfold memory_bytes.
      by rewrite length_fmap, length_seq.
    - intros j Hj. by apply (memory_bytes_lookup _ _ _ _ _ Hmem). }
  assert (file_access_entry trace_number ev st st1
            {| stored := m ++ [zero];
               copy_result := Z.of_nat (length m);
               peeked := word_addresses src (length m / 8 + 1) |}) as Hentry.
  { split; [done|]. split; [done|]. by exists src. }
  pose proof (tracer_iteration_file_access _ _ _ _ _ Hentry) as Hit.
  assert (c_str (m ++ [zero]) = m) as Hstr by by apply c_str_terminated.
  destruct (error_marker_is_read _ _ _ Hcp) as [Hpos Herr].
  { simpl. by rewrite Hstr. }
  apply resume_and_wait_Continue in Hwait as (Hl & He & _).
  pose proof (loop_head_keeps _ _ _ _ _ Hpre) as [He' _].
  unfold pgoptionfiles_tracer. rewrite (tracer_loop_app _ _ _ _ _ _ Hpre).
  simpl tracer_loop. rewrite Hit. unfold filter_and_collect.
  rewrite Hpos, Herr. eexists. split; [done|]. simpl.
  rewrite Hstr, He, He', Hl. done.
Qed.

(** X19: when the error list that the tracer builds has room in the
    array of [main], whatever [main] prints in the parent process, or
    when it cannot start the tracee, begins with "(pgoptionfiles)"; the
    rest of the first line is empty when [main] returns 0, empty or a
    message that starts with "Error: " when it returns -1, and such a
    message for every other value; after the first line comes nothing,
    or the file names list of the tracer and a newline, and then [main]
    returns what the tracer returned. *)
Theorem main_output (argc : Z) (argv1 : cstring) (pid : Z) (ans : library_answers)
    (evs : list tracee_event) (e : process_end) :
  PGOPTIONFILES_TRACEE_ONLY ≠ 1 →
  pid ≠ 0 →
  main argc argv1 pid ans evs = Some (Ended e) →
  ∃ msg names,
    stdout e = lit "(pgoptionfiles)" ++ msg ++ [newline] ++ names
    ∧ ((exit_code e = 0 ∧ msg = [])
       ∨ (exit_code e = -1 ∧ msg = [])
       ∨ (exit_code e ≠ 0 ∧ take 7 msg = lit "Error: "))
    ∧ ((names = [] ∧ (argc < 2 ∨ pid < 0))
       ∨ ∃ st, main_tracer evs = Some st
               ∧ fits error_list_size (error_list st) = true
               ∧ names = file_names_list st ++ [newline]
               ∧ exit_code e = retcode st).
Proof.
  intros Hmode Hpid. unfold main.
  destruct (Z.ltb_spec argc 2) as [Hargc|Hargc].
  { intros [= <-].
    exists (lit "Error: too few args. Say pgoptionfiles library-file"), [].
    split; [reflexivity|].
    split; [right; right; by split|]. left. split; [done|]. by left. }
  destruct (Z.eqb_spec PGOPTIONFILES_TRACEE_ONLY 1) as [|_]; [done|].
  destruct (Z.ltb_spec pid 0) as [Hfork|Hfork].
  { intros [= <-]. exists (lit "Error: fork() failed"), [].
    split; [reflexivity|].
    split; [right; right; by split|]. left. split; [done|]. by right. }
  destruct (Z.eqb_spec pid 0) as [|_]; [done|].
  destruct (main_tracer evs) as [st|] eqn:E; [|done].
  destruct (fits error_list_size (error_list st)) eqn:Hfits; [|done].
  intros [= <-]. simpl.
  assert (∃ msg,
            error_list st = lit "(pgoptionfiles)" ++ msg
            ∧ ((retcode st = 0 ∧ msg = [])
               ∨ (retcode st = -1 ∧ msg = [])
               ∨ (retcode st ≠ 0 ∧ take 7 msg = lit "Error: ")))
    as (msg & Herr & Hcases).
  { unfold main_tracer, pgoptionfiles_tracer in E.
    destruct (tracer_loop 0 evs (initial_state (lit "") (lit "(pgoptionfiles)")))
      as [st1|] eqn:Hloop; [|done].
    injection E as <-. simpl.
    apply tracer_loop_ends in Hloop
      as (pre & ev & post & tn & st0 & _ & Hpre & Hit).
    apply loop_head_keeps in Hpre as [He Hr]. simpl in He, Hr.
    apply tracer_iteration_Break in Hit as (_ & msg & Hmsg & Hcases).
    exists msg. rewrite Hmsg, He. split; [done|]. rewrite Hr in Hcases.
    destruct Hcases
      as [[-> ->]|[[-> ->]|[[-> ->]|[[-> ->]|[[-> ->]|[[-> ->]|[-> Hm]]]]]]];
      auto; right; right; by split. }
  exists msg, (file_names_list st ++ [newline]). rewrite Herr, <- app_assoc.
  split; [done|]. split; [done|]. right. by exists st.
Qed.

(** ** The end of the tracee and the wrap of the trace number *)

(** X20: when a wait reports that the tracee has exited, the tracer
    returns 0 at once: it reads no registers, sends no signal and appends
    nothing to the error list. *)
Theorem tracee_exit_ends_session (pre : list tracee_event) (ev : tracee_event)
    (post : list tracee_event) (names errors : cstring)
    (trace_number : Z) (st : tracer_state) :
  loop_head 0 pre (initial_state names errors) = Some (trace_number, st) →
  0 ≤ ptrace_syscall_result ev →
  0 < waitpid_result ev →
  WIFEXITED (wstatus ev) = true →
  pgoptionfiles_tracer (pre ++ ev :: post) names errors
  = Some {| file_names_list := eliminate_delimiters (file_names_list st) [];
            error_list := errors;
            retcode := 0;
            status := wstatus ev;
            calls := calls st
                     ++ (if 0 <? trace_number then [ptrace_SYSCALL] else [])
                     ++ [waitpid] |}.
Proof.
  intros Hpre Hsys Hwait Hexit.
  pose proof (loop_head_keeps _ _ _ _ _ Hpre) as [He _]. simpl in He.
  unfold pgoptionfiles_tracer. rewrite (tracer_loop_app _ _ _ _ _ _ Hpre).
  simpl tracer_loop. unfold tracer_iteration, resume_and_wait.
  destruct (Z.ltb_spec (ptrace_syscall_result ev) 0) as [|_]; [lia|].
  rewrite andb_false_r.
  destruct (Z.ltb_spec 0 (waitpid_result ev)) as [_|]; [|lia].
  destruct (Z.eqb_spec (waitpid_result ev) 0) as [|_]; [lia|].
  rewrite andb_false_r.
  destruct (Z.ltb_spec (waitpid_result ev) 0) as [|_]; [lia|].
  simpl status. rewrite Hexit.
  destruct (0 <? trace_number); unfold_state; rewrite He, <- ?app_assoc; done.
Qed.

Lemma loop_head_trace_number (evs : list tracee_event) (trace_number : Z)
    (st : tracer_state) (trace_number' : Z) (st' : tracer_state) :
  loop_head trace_number evs st = Some (trace_number', st') →
  0 ≤ trace_number < 2 ^ 32 →
  trace_number' = (trace_number + Z.of_nat (length evs)) mod 2 ^ 32.
Proof.
  revert trace_number st. induction evs as [|ev evs IH]; intros tn st.
  { simpl. intros [= <- <-] Htn. rewrite Z.add_0_r. by rewrite Z.mod_small. }
  cbn [loop_head].
  destruct (tracer_iteration tn ev st) as [[st1|]|]; try done.
  intros H Htn. rewrite (IH _ _ H).
  - unfold next_trace_number. rewrite Zplus_mod_idemp_l. f_equal.
    rewrite length_cons. lia.
  - unfold next_trace_number. by apply Z.mod_pos_bound.
Qed.

(** X21: [trace_number] is an unsigned int: after the iteration with
    trace number 2^32 - 1 it is 0 again, and the stop that follows is
    handled like the first stop of the tracee: PTRACE_SYSCALL is not
    called before the wait, and a stop that is not a stop by SIGSTOP ends
    the loop with SIGKILL, the status message and -3. *)
Theorem trace_number_wraps_to_first_stop (ev ev' : tracee_event)
    (post : list tracee_event) (st st1 : tracer_state) :
  tracer_iteration (2 ^ 32 - 1) ev st = Some (Continue st1) →
  0 < waitpid_result ev' →
  WIFEXITED (wstatus ev') = false →
  negb (WIFSTOPPED (wstatus ev')) || negb (WSTOPSIG (wstatus ev') =? SIGSTOP)
  = true →
  tracer_loop (2 ^ 32 - 1) (ev :: ev' :: post) st
  = Some {| file_names_list := file_names_list st1;
            error_list := error_list st1 ++ lit "Error: waitpid status: "
                          ++ printf_x (wstatus ev') ++ lit ".";
            retcode := -3;
            status := wstatus ev';
            calls := calls st1 ++ [waitpid; kill SIGKILL] |}.
Proof.
  intros Hit Hwait Hexit Hstop. cbn [tracer_loop]. rewrite Hit.
  change (next_trace_number (2 ^ 32 - 1)) with 0.
  unfold tracer_iteration, resume_and_wait.
  change (0 <? 0) with false. rewrite andb_false_l.
  destruct (Z.ltb_spec 0 (waitpid_result ev')) as [_|]; [|lia].
  destruct (Z.eqb_spec (waitpid_result ev') 0) as [|_]; [lia|].
  rewrite andb_false_r.
  destruct (Z.ltb_spec (waitpid_result ev') 0) as [|_]; [lia|].
  simpl status. rewrite Hexit. change (0 =? 0) with true. cbv iota.
  unfold initial_stop. simpl status. rewrite Hstop. unfold_state.
  by rewrite <- app_assoc.
Qed.

(** ** The size of the error list *)

Lemma hex_digits_length (fuel : nat) (z : Z) (acc : cstring) :
  (length (hex_digits fuel z acc) ≤ fuel + length acc)%nat.
Proof.
  revert z acc. induction fuel as [|fuel IH]; intros z acc; simpl; [lia|].
  case_match; simpl; [lia|]. etrans; [apply IH|]. simpl. lia.
Qed.

Lemma copy_from_tracee_length (mem : tracee_memory) (src : Z) (cp : copied) :
  pgoptionfiles_copy_from_tracee mem src = Some cp →
  0 < copy_result cp →
  strlen (c_str (stored cp)) ≤ PATH_MAX - 1.
Proof.
  destruct (decide (src = 0)) as [->|Hsrc].
  { unfold pgoptionfiles_copy_from_tracee. simpl. intros [= <-]. simpl. lia. }
  destruct (copy_from_tracee_returns mem src Hsrc) as (path & peeks & -> & Hnz & Hcap).
  intros [= <-]. simpl. rewrite c_str_terminated by done. unfold strlen.
  intros Hpos. apply Hcap. by destruct path.
Qed.

Lemma filter_and_collect_Break_message (regs : user_regs_struct) (cp : copied)
    (st st' : tracer_state) :
  filter_and_collect regs cp st = Break st' →
  error_list st' = error_list st
  ∨ (0 < copy_result cp ∧ error_list st' = error_list st ++ c_str (stored cp)).
Proof.
  unfold filter_and_collect, strcat.
  destruct (Z.ltb_spec 0 (copy_result cp)); [|done].
  destruct (strncmp_is_0 (c_str (stored cp)) (lit "Error: ") 7).
  { intros [= <-]. by right. }
  repeat case_match; intros [= <-]; by left.
Qed.

Lemma tracer_iteration_Break_bound (trace_number : Z) (ev : tracee_event)
    (st st' : tracer_state) :
  tracer_iteration trace_number ev st = Some (Break st') →
  strlen (error_list st') ≤ strlen (error_list st) + Z.max 32 (PATH_MAX - 1).
Proof.
  unfold tracer_iteration, strlen.
  destruct (resume_and_wait trace_number ev st) as [st1|st1] eqn:E.
  2:{ intros [= <-].
      apply resume_and_wait_Break in E as (msg & -> & Hcases).
      rewrite length_app.
      destruct Hcases as [[_ ->]|[[_ ->]|[[_ ->]|[_ ->]]]]; simpl length; lia. }
  apply resume_and_wait_Continue in E as (_ & He & _).
  destruct (trace_number =? 0).
  { unfold initial_stop. case_match; [|done]. intros [= <-]. unfold_state.
    rewrite He. unfold printf_x.
    pose proof (hex_digits_length 8 (status st1 mod 2 ^ 32) []) as Hhex.
    cbn [length] in Hhex. repeat (rewrite ?length_app; cbn [length]). lia. }
  destruct (trace_number mod 2 =? 1); [|done].
  unfold syscall_entry. destruct (path_argument (registers ev)) as [src|]; [|done].
  destruct (pgoptionfiles_copy_from_tracee (memory ev) src) as [cp|] eqn:Hcp;
    [|done].
  intros [= H]. apply filter_and_collect_Break_message in H as [H|[Hpos H]];
    rewrite H; unfold_state; rewrite He; [lia|].
  pose proof (copy_from_tracee_length _ _ _ Hcp Hpos) as Hlen.
  unfold strlen in Hlen. rewrite length_app. lia.
Qed.

(** X22: the tracer appends at most [PATH_MAX - 1] characters to the
    error list, or 32 if that is more: what it appends is one of its own
    messages, of at most 32 characters, or a string that the reader has
    returned. *)
Theorem error_list_growth (evs : list tracee_event) (names errors : cstring)
    (st : tracer_state) :
  pgoptionfiles_tracer evs names errors = Some st →
  strlen (error_list st) ≤ strlen errors + Z.max 32 (PATH_MAX - 1).
Proof.
  unfold pgoptionfiles_tracer.
  destruct (tracer_loop 0 evs (initial_state names errors)) as [st1|] eqn:E; [|done].
  intros [= <-]. simpl.
  apply tracer_loop_ends in E as (pre & ev & post & tn & st0 & _ & Hpre & Hit).
  apply loop_head_keeps in Hpre as [He _]. simpl in He.
  apply tracer_iteration_Break_bound in Hit. by rewrite He in Hit.
Qed.

End Pgoptionfiles.

(** ** The sample tracees, run *)

(** The reader stops at [PATH_MAX - 1] bytes when the string is longer. *)
Example copy_from_tracee_truncates :
  pgoptionfiles_copy_from_tracee 8 (memory_holding 4096 "/etc/my.cnf") 4096
  = Some {| stored := lit "/etc/my" ++ [zero]; copy_result := 7; peeked := [4096] |}.
Proof. reflexivity. Qed.

(** The scenario of the specification: openat, access, and the openat
    again, each followed by the stop at the exit of the syscall. *)
Example scenario_two_option_files :
  file_names_list <$>
    main_tracer newline 4096 0 0 4096
      [sigstop_event;
       syscall_event 257 0 4096 4096 "/etc/my.cnf"; syscall_event 257 0 4096 4096 "";
       syscall_event 21 8192 0 8192 "/home/u/.my.cnf"; syscall_event 21 8192 0 8192 "";
       syscall_event 257 0 4096 4096 "/etc/my.cnf"; syscall_event 257 0 4096 4096 "";
       exit_event]
  = Some (lit "/etc/my.cnf" ++ [newline] ++ lit "/home/u/.my.cnf").
Proof. evaluate. Qed.

(** ** The theorems at the sample tracees *)

(** Shows that a sample event is the entry stop of a monitored syscall
    whose path argument lies at [addr]. *)
Ltac entry_at addr :=
  split; [evaluate|]; split; [reflexivity|]; exists addr; split; evaluate.

Lemma copy_from_tracee_bounded_witness :
  0 < 4096 ∧ 4096 ≠ 0 ∧
  ∃ path peeks,
    pgoptionfiles_copy_from_tracee 4096 (memory_holding 4096 "/etc/my.cnf") 4096
    = Some {| stored := path ++ [zero];
              copy_result := Z.of_nat (length path);
              peeked := peeks |}
    ∧ Forall (λ c, c ≠ zero) path
    ∧ c_str (path ++ [zero]) = path
    ∧ Z.of_nat (length path) ≤ 4096 - 1
    ∧ Z.of_nat (length path) < 4096.
Proof.
  split; [lia|]. split; [lia|].
  apply (copy_from_tracee_bounded 4096 (memory_holding 4096 "/etc/my.cnf") 4096); lia.
Defined.

Lemma syscall_entry_path_argument_witness :
  let ev := syscall_event 257 0 4096 4096 "/etc/my.cnf" in
  let st1 := set_status 1407 (called [ptrace_SYSCALL; waitpid] (initial_state [] [])) in
  tracer_iteration newline 4096 0 0 4096 1 ev (initial_state [] [])
  = if decide (orig_rax (registers ev) ∈ [2; 4; 6; 21; 257])
    then
      cp ← pgoptionfiles_copy_from_tracee 4096 (memory ev)
             (if decide (orig_rax (registers ev) = 257)
              then rsi (registers ev) else rdi (registers ev));
      Some (filter_and_collect newline 4096 0 (registers ev) cp
              (called (ptrace_PEEKDATA <$> peeked cp)
                 (called [ptrace_GETREGS] st1)))
    else Some (Continue (called [ptrace_GETREGS] st1)).
Proof.
  intros ev st1.
  apply (syscall_entry_path_argument newline 4096 0 0 4096 1 ev (initial_state [] []) st1).
  - reflexivity.
  - reflexivity.
Defined.

Lemma initial_stop_not_sigstop_witness :
  let ev := syscall_event 257 0 4096 4096 "/etc/my.cnf" in
  0 < waitpid_result ev ∧
  WIFEXITED (wstatus ev) = false ∧
  WSTOPSIG (wstatus ev) ≠ SIGSTOP ∧
  pgoptionfiles_tracer newline 4096 0 0 4096 [ev] [] (lit "(pgoptionfiles)")
  = Some {| file_names_list := [];
            error_list := lit "(pgoptionfiles)Error: waitpid status: 57f.";
            retcode := -3;
            status := 1407;
            calls := [waitpid; kill SIGKILL] |}.
Proof.
  intros ev. split; [reflexivity|]. split; [reflexivity|].
  split; [vm_compute; discriminate|].
  apply (initial_stop_not_sigstop newline 4096 0 0 4096 ev [] [] (lit "(pgoptionfiles)")).
  - reflexivity.
  - reflexivity.
  - right. vm_compute. discriminate.
Defined.

Lemma error_marker_ends_session_witness :
  ∃ st',
    pgoptionfiles_tracer newline 4096 0 0 4096
      ([sigstop_event;
        syscall_event 257 0 4096 4096 "/etc/my.cnf";
        syscall_event 257 0 4096 4096 ""]
       ++ syscall_event 257 0 4096 4096 "Error: dlopen() failed, my.cnf"
       :: [exit_event])
      [] (lit "(pgoptionfiles)")
    = Some st'
    ∧ error_list st' = lit "(pgoptionfiles)Error: dlopen() failed, my.cnf"
    ∧ retcode st' = -6
    ∧ file_names_list st' = lit "/etc/my.cnf".
Proof.
  edestruct (error_marker_ends_session newline 4096 0 0 4096 error_list_size
               [sigstop_event;
                syscall_event 257 0 4096 4096 "/etc/my.cnf";
                syscall_event 257 0 4096 4096 ""]
               (syscall_event 257 0 4096 4096 "Error: dlopen() failed, my.cnf")
               [exit_event] [] (lit "(pgoptionfiles)"))
    as (st' & Hrun & Herr & _ & Hret & Hlist & _).
  - evaluate.
  - entry_at 4096.
  - evaluate.
  - evaluate.
  - exists st'. split; [exact Hrun|]. split; [exact Herr|].
    split; [exact Hret|exact Hlist].
Defined.

Lemma capacity_ends_session_witness :
  ∃ st',
    pgoptionfiles_tracer newline 20 0 0 4096
      ([sigstop_event;
        syscall_event 257 0 4096 4096 "/etc/my.cnf";
        syscall_event 257 0 4096 4096 ""]
       ++ syscall_event 21 8192 0 8192 "/home/u/.my.cnf"
       :: [syscall_event 21 8192 0 8192 ""; exit_event])
      [] (lit "(pgoptionfiles)")
    = Some st'
    ∧ retcode st' = 0
    ∧ error_list st' = lit "(pgoptionfiles)"
    ∧ file_names_list st' = lit "/etc/my.cnf".
Proof.
  edestruct (capacity_ends_session newline 20 0 0 4096
               [sigstop_event;
                syscall_event 257 0 4096 4096 "/etc/my.cnf";
                syscall_event 257 0 4096 4096 ""]
               (syscall_event 21 8192 0 8192 "/home/u/.my.cnf")
               [syscall_event 21 8192 0 8192 ""; exit_event]
               [] (lit "(pgoptionfiles)"))
    as (st' & Hrun & Hret & Herr & Hlist).
  - evaluate.
  - entry_at 8192.
  - evaluate.
  - evaluate.
  - evaluate.
  - vm_compute. discriminate.
  - exists st'. split; [exact Hrun|]. split; [exact Hret|].
    split; [exact Herr|exact Hlist].
Defined.

(** The second openat of the same file: the path is in the list already,
    and the registers are written back all the same. *)
Lemma suppressed_read_patches_first_witness :
  let ev := syscall_event 257 0 4096 4096 "/etc/my.cnf" in
  let st :=
    {| file_names_list := newline :: lit "/etc/my.cnf" ++ [newline];
       error_list := [];
       retcode := 0;
       status := 1407;
       calls := [] |} in
  tracer_iteration newline 4096 0 0 4096 3 ev st
  = Some (Continue
            {| file_names_list := newline :: lit "/etc/my.cnf" ++ [newline];
               error_list := [];
               retcode := 0;
               status := 1407;
               calls := [ptrace_SYSCALL; waitpid; ptrace_GETREGS;
                         ptrace_PEEKDATA 4096; ptrace_PEEKDATA 4104;
                         ptrace_SETREGS
                           {| orig_rax := 257; rdi := 0; rsi := 4108 |}] |}).
Proof.
  intros ev st.
  pose proof (suppressed_read_patches_first newline 4096 0 0 4096 3 ev st
                (set_status 1407 (called [ptrace_SYSCALL; waitpid] st))
                {| stored := lit "/etc/my.cnf" ++ [zero];
                   copy_result := 11;
                   peeked := [4096; 4104] |}) as H.
  apply H.
  - reflexivity.
  - entry_at 4096.
  - reflexivity.
  - reflexivity.
Defined.




(** ** The register written in suppressed-read mode *)

(** C2: a tracee stops at the entry of openat with [rsi = 4096], where
    the path "/etc/my.cnf" lies; its terminating NUL is at 4096 + 11.
    With PGOPTIONFILES_READ == 0 the tracer writes [rsi = 4096 + 12]
    back, the address after the NUL. *)
Theorem suppressed_read_register_past_nul :
  let ev := syscall_event 257 0 4096 4096 "/etc/my.cnf" in
  let st := set_status 4991 (called [waitpid] (initial_state [] [])) in
  pgoptionfiles_copy_from_tracee 4096 (memory ev) (rsi (registers ev))
  = Some {| stored := lit "/etc/my.cnf" ++ [zero];
            copy_result := 11;
            peeked := [4096; 4104] |}
  ∧ memory ev (4096 + 11) = Some zero
  ∧ ∃ st',
      tracer_iteration newline 4096 0 0 4096 1 ev st = Some (Continue st')
      ∧ last (calls st')
        = Some (ptrace_SETREGS {| orig_rax := 257; rdi := 0; rsi := 4096 + 12 |}).
Proof.
  intros ev st. split; [evaluate|]. split; [reflexivity|].
  eexists. split; evaluate.
Qed.

(** C10: a tracee opens "/etc/my.cnf" a second time; in its memory the
    name is followed, behind its NUL at 4096 + 11, by the string
    "/tmp/decoy".  With PGOPTIONFILES_READ == 0 the registers are written
    although the path is in the list already, and the list stays as it
    is; but the register is moved by the length of [file_name], which
    starts with the delimiter, so it points behind the NUL: what the
    kernel finds there is "/tmp/decoy", not the empty string, and the
    access goes to that file instead of being suppressed. *)
Theorem suppressed_read_reaches_next_string :
  let ev :=
    syscall_event 257 0 4096 4096
      (String.append "/etc/my.cnf" (String zero "/tmp/decoy")) in
  let st :=
    {| file_names_list := newline :: lit "/etc/my.cnf" ++ [newline];
       error_list := [];
       retcode := 0;
       status := 1407;
       calls := [] |} in
  memory ev (4096 + 11) = Some zero
  ∧ ∃ st' regs,
      tracer_iteration newline 4096 0 0 4096 3 ev st = Some (Continue st')
      ∧ file_names_list st' = file_names_list st
      ∧ last (calls st') = Some (ptrace_SETREGS regs)
      ∧ rsi regs = 4096 + 12
      ∧ memory_bytes (memory ev) (rsi regs) 11
        = Some <$> (lit "/tmp/decoy" ++ [zero]).
Proof.
  intros ev st. split; [reflexivity|].
  eexists _, _. split; [evaluate|]. split; [evaluate|]. split; [evaluate|].
  split; evaluate.
Qed.

(** ** The array of the error list *)

(** C4: a tracee opens a file whose name is "Error: " followed by 4081
    characters "a", 4088 characters in all.  The tracer takes the name
    for an error message, appends it with strcat to the error list and
    returns -6.  The error list of [main] holds "(pgoptionfiles)" in an
    array of 4096 bytes: the string that strcat is to leave there has
    4103 characters and does not fit, so the bytes go past the end of the
    array and [main] ends in [Overrun]; neither the error text nor the
    file names list that the program prints is determined any more. *)
Theorem error_marker_overruns_error_list :
  let text := lit "Error: " ++ replicate 4081 "a"%char in
  let evs :=
    [sigstop_event; long_path_event 257 0 4096 4096 "Error: " 4081 "a"; exit_event] in
  ∃ st,
    main_tracer newline 4096 0 0 4096 evs = Some st
    ∧ retcode st = -6
    ∧ error_list st = lit "(pgoptionfiles)" ++ text
    ∧ strlen (error_list st) = 4103
    ∧ fits error_list_size (error_list st) = false
    ∧ main newline 4096 0 0 4096 0 2 (lit "/usr/lib/libmariadb.so") 1000
        no_library evs
      = Some Overrun.
Proof.
  intros text evs.
  assert (∃ st, main_tracer newline 4096 0 0 4096 evs = Some st
                ∧ retcode st = -6
                ∧ error_list st = lit "(pgoptionfiles)" ++ text)
    as (st & Hrun & Hret & Herr).
  { eexists. split; [evaluate|]. split; [reflexivity|evaluate]. }
  assert (strlen (error_list st) = 4103) as Hlen by (rewrite Herr; evaluate).
  assert (fits error_list_size (error_list st) = false) as Hfits
    by (unfold fits; rewrite Hlen; reflexivity).
  exists st. split; [exact Hrun|]. split; [exact Hret|]. split; [exact Herr|].
  split; [exact Hlen|]. split; [exact Hfits|].
  unfold main. change (2 <? 2) with false. change (0 =? 1) with false.
  change (1000 <? 0) with false. change (1000 =? 0) with false. cbv iota.
  rewrite Hrun, Hfits. reflexivity.
Qed.

(** ** The further theorems at the sample tracees *)

Lemma reader_bytes_from_memory_witness :
  memory_bytes (memory_holding 4096 "/etc/my.cnf") 4096 11
  = Some <$> lit "/etc/my.cnf".
Proof.
  apply (reader_bytes_from_memory 4096 (memory_holding 4096 "/etc/my.cnf") 4096
           copied_my_cnf).
  evaluate.
Defined.

Lemma reader_stops_witness :
  4096 - 1 ≤ 11
  ∨ memory_holding 4096 "/etc/my.cnf" (wrap64 (4096 + 11)) = Some zero
  ∨ (11 mod 8 = 0
     ∧ PTRACE_PEEKDATA (memory_holding 4096 "/etc/my.cnf") (wrap64 (4096 + 11))
       = None).
Proof.
  apply (reader_stops 4096 (memory_holding 4096 "/etc/my.cnf") 4096 copied_my_cnf).
  - lia.
  - evaluate.
Defined.

Lemma reader_peeks_witness :
  peeked copied_my_cnf = word_addresses 4096 2.
Proof.
  apply (reader_peeks 4096 (memory_holding 4096 "/etc/my.cnf") 4096 copied_my_cnf).
  - lia.
  - evaluate.
Defined.

Lemma reader_returns_string_witness :
  pgoptionfiles_copy_from_tracee 4096 (memory_holding 4096 "/etc/my.cnf") 4096
  = Some {| stored := lit "/etc/my.cnf" ++ [zero];
            copy_result := 11;
            peeked := word_addresses 4096 2 |}.
Proof.
  apply (reader_returns_string 4096 (memory_holding 4096 "/etc/my.cnf") 4096
           (lit "/etc/my.cnf") [zero; zero; zero; zero]).
  - lia.
  - by repeat constructor.
  - simpl. lia.
  - evaluate.
Defined.

Lemma return_codes_and_messages_witness :
  ∃ st,
    pgoptionfiles_tracer newline 4096 0 0 4096
      [sigstop_event; syscall_event 257 0 4096 4096 "Error: dlopen() failed"]
      [] (lit "(pgoptionfiles)") = Some st
    ∧ ∃ msg,
        error_list st = lit "(pgoptionfiles)" ++ msg
        ∧ ((retcode st = 0 ∧ msg = [])
           ∨ (retcode st = -1 ∧ (msg = [] ∨ msg = lit "Error: waitpid timeout."))
           ∨ (retcode st = -2 ∧ msg = lit "Error: waitpid failed.")
           ∨ (retcode st = -3
              ∧ msg = lit "Error: waitpid status: " ++ printf_x (status st)
                      ++ lit ".")
           ∨ (retcode st = -6 ∧ take 7 msg = lit "Error: ")).
Proof.
  eexists. split; [evaluate|].
  apply (return_codes_and_messages newline 4096 0 0 4096
           [sigstop_event; syscall_event 257 0 4096 4096 "Error: dlopen() failed"]
           [] (lit "(pgoptionfiles)")).
  evaluate.
Defined.

Lemma ptrace_syscall_failure_witness :
  ∃ st,
    pgoptionfiles_tracer newline 4096 0 0 4096
      ([sigstop_event] ++ resume_failure_event :: [exit_event])
      [] (lit "(pgoptionfiles)") = Some st
    ∧ retcode st = -1
    ∧ error_list st = lit "(pgoptionfiles)"
    ∧ calls st = [waitpid; ptrace_SYSCALL].
Proof.
  eexists. split.
  - eapply (ptrace_syscall_failure newline 4096 0 0 4096
              [sigstop_event] resume_failure_event [exit_event]
              [] (lit "(pgoptionfiles)")).
    + evaluate.
    + lia.
    + simpl. lia.
  - repeat split; evaluate.
Defined.

Lemma waitpid_failure_witness :
  ∃ st,
    pgoptionfiles_tracer newline 4096 0 0 4096
      ([sigstop_event] ++ wait_failure_event :: [exit_event])
      [] (lit "(pgoptionfiles)") = Some st
    ∧ retcode st = -2
    ∧ error_list st = lit "(pgoptionfiles)Error: waitpid failed."
    ∧ calls st = [waitpid; ptrace_SYSCALL; waitpid].
Proof.
  eexists. split.
  - eapply (waitpid_failure newline 4096 0 0 4096
              [sigstop_event] wait_failure_event [exit_event]
              [] (lit "(pgoptionfiles)")).
    + done.
    + evaluate.
    + simpl. lia.
    + simpl. lia.
  - repeat split; evaluate.
Defined.

Lemma first_waitpid_failure_witness :
  pgoptionfiles_tracer newline 4096 0 0 4096
    (wait_failure_event :: [exit_event]) [] (lit "(pgoptionfiles)")
  = Some {| file_names_list := [];
            error_list := lit "(pgoptionfiles)";
            retcode := 0;
            status := 0;
            calls := [waitpid] |}.
Proof.
  apply (first_waitpid_failure newline 4096 0 0 4096 wait_failure_event
           [exit_event] [] (lit "(pgoptionfiles)")).
  simpl. lia.
Defined.

Lemma waitpid_timeout_witness :
  ∃ st,
    pgoptionfiles_tracer newline 4096 0 1 4096
      ([sigstop_event] ++ wait_timeout_event :: [exit_event])
      [] (lit "(pgoptionfiles)") = Some st
    ∧ retcode st = -1
    ∧ error_list st = lit "(pgoptionfiles)" ++ lit "Error: waitpid timeout."
    ∧ signals_of (calls st) = [SIGTERM].
Proof.
  edestruct (waitpid_timeout newline 4096 0 1 4096
               [sigstop_event] wait_timeout_event [exit_event]
               [] (lit "(pgoptionfiles)"))
    as (st' & made & Hrun & Hret & Herr & _ & Hcalls & Hsig & _).
  - lia.
  - evaluate.
  - simpl. lia.
  - reflexivity.
  - exists st'. split; [exact Hrun|]. split; [exact Hret|]. split; [exact Herr|].
    rewrite Hcalls, signals_of_app, Hsig. reflexivity.
Defined.

Lemma exit_stops_not_inspected_witness :
  tracer_iteration newline 4096 0 0 4096 2
    (syscall_event 257 0 4096 4096 "/etc/my.cnf")
    (initial_state [] (lit "(pgoptionfiles)"))
  = tracer_iteration newline 4096 0 0 4096 2
      (syscall_event 21 0 0 0 "")
      (initial_state [] (lit "(pgoptionfiles)")).
Proof.
  apply (exit_stops_not_inspected newline 4096 0 0 4096 2
           (syscall_event 21 0 0 0 "")
           (syscall_event 257 0 4096 4096 "/etc/my.cnf")
           (initial_state [] (lit "(pgoptionfiles)")));
    reflexivity.
Defined.

Lemma session_register_writes_witness :
  ∃ st,
    pgoptionfiles_tracer newline 4096 0 0 4096 sample_session
      [] (lit "(pgoptionfiles)") = Some st
    ∧ register_writes_of (calls st)
      = [ {| orig_rax := 257; rdi := 0; rsi := 4096 + 12 |};
          {| orig_rax := 21; rdi := 8192 + 16; rsi := 0 |};
          {| orig_rax := 257; rdi := 0; rsi := 4096 + 12 |} ].
Proof.
  eexists. split; [evaluate|].
  etrans.
  - apply (session_register_writes newline 4096 0 0 4096 sample_session
             [] (lit "(pgoptionfiles)")).
    evaluate.
  - evaluate.
Defined.

Lemma session_signals_witness :
  ∃ st,
    pgoptionfiles_tracer newline 4096 0 1 4096
      [sigstop_event; wait_timeout_event] [] (lit "(pgoptionfiles)") = Some st
    ∧ (signals_of (calls st) = []
       ∨ (signals_of (calls st) = [SIGTERM] ∧ retcode st = -1 ∧ 1 ≠ 0)
       ∨ (signals_of (calls st) = [SIGKILL] ∧ retcode st = -3)).
Proof.
  eexists. split; [evaluate|].
  apply (session_signals newline 4096 0 1 4096
           [sigstop_event; wait_timeout_event] [] (lit "(pgoptionfiles)")).
  evaluate.
Defined.

Lemma final_list_fits_witness :
  ∃ st,
    pgoptionfiles_tracer newline 20 0 0 4096 sample_session
      [] (lit "(pgoptionfiles)") = Some st
    ∧ strlen (file_names_list st) < 20.
Proof.
  eexists. split; [evaluate|].
  apply (final_list_fits newline 20 0 0 4096 sample_session
           [] (lit "(pgoptionfiles)")).
  - evaluate.
  - evaluate.
Defined.


Lemma tracee_opens_only_to_report_witness :
  0 ≠ 1
  ∧ take 7 (lit "Error: dlopen() failed --does library exist and is it Connector C?")
    = lit "Error: "
  ∧ exit_code (pgoptionfiles_tracee 0 no_library (lit "/usr/lib/libmariadb.so"))
    = EXIT_FAILURE.
Proof.
  destruct (tracee_opens_only_to_report 0 no_library (lit "/usr/lib/libmariadb.so")
              (lit "Error: dlopen() failed --does library exist and is it Connector C?"))
    as (Hmode & Hmessage & _ & _ & _ & Hcode & _).
  - vm_compute. repeat constructor.
  - split; [exact Hmode|]. split; [exact Hmessage|]. exact Hcode.
Defined.

Lemma tracee_only_prints_witness :
  (∀ path,
     tracee_fopen path
     ∉ tracee_calls (pgoptionfiles_tracee 1 no_library (lit "/usr/lib/libmariadb.so")))
  ∧ stdout (pgoptionfiles_tracee 1 no_library (lit "/usr/lib/libmariadb.so"))
    = lit "Error: dlopen() failed --does library exist and is it Connector C?"
      ++ [newline].
Proof.
  destruct (tracee_only_prints 1 no_library (lit "/usr/lib/libmariadb.so"))
    as (_ & _ & Hopen & _).
  - reflexivity.
  - split; [exact Hopen|]. evaluate.
Defined.

Lemma tracee_error_reaches_tracer_witness :
  ∃ st,
    pgoptionfiles_tracer newline 4096 0 0 4096
      ([sigstop_event]
       ++ syscall_event 257 0 4096 4096
            "Error: dlopen() failed --does library exist and is it Connector C?"
       :: [exit_event])
      [] (lit "(pgoptionfiles)") = Some st
    ∧ retcode st = -6
    ∧ error_list st
      = lit "(pgoptionfiles)"
        ++ lit "Error: dlopen() failed --does library exist and is it Connector C?".
Proof.
  edestruct (tracee_error_reaches_tracer newline 4096 0 0 4096 0
               no_library (lit "/usr/lib/libmariadb.so")
               (lit "Error: dlopen() failed --does library exist and is it Connector C?")
               [sigstop_event]
               (syscall_event 257 0 4096 4096
                  "Error: dlopen() failed --does library exist and is it Connector C?")
               [exit_event] [] (lit "(pgoptionfiles)") 1)
    as (st & Hrun & Hret & Herr & _).
  - vm_compute. repeat constructor.
  - lia.
  - evaluate.
  - evaluate.
  - reflexivity.
  - evaluate.
  - lia.
  - instantiate (1 := [zero; zero; zero; zero; zero]). evaluate.
  - exists st. split; [exact Hrun|]. split; [exact Hret|exact Herr].
Defined.

Lemma main_output_witness :
  ∃ e,
    main newline 4096 0 0 4096 0 2 (lit "/usr/lib/libmariadb.so") 1000 no_library
      sample_session = Some (Ended e)
    ∧ ∃ msg names,
        stdout e = lit "(pgoptionfiles)" ++ msg ++ [newline] ++ names
        ∧ ((exit_code e = 0 ∧ msg = [])
           ∨ (exit_code e = -1 ∧ msg = [])
           ∨ (exit_code e ≠ 0 ∧ take 7 msg = lit "Error: "))
        ∧ ((names = [] ∧ (2 < 2 ∨ 1000 < 0))
           ∨ ∃ st, main_tracer newline 4096 0 0 4096 sample_session = Some st
                   ∧ fits error_list_size (error_list st) = true
                   ∧ names = file_names_list st ++ [newline]
                   ∧ exit_code e = retcode st).
Proof.
  eexists. split; [evaluate|].
  apply (main_output newline 4096 0 0 4096 0 2 (lit "/usr/lib/libmariadb.so")
           1000 no_library sample_session).
  - lia.
  - lia.
  - evaluate.
Defined.

Lemma tracee_exit_ends_session_witness :
  ∃ st,
    pgoptionfiles_tracer newline 4096 0 0 4096
      ([sigstop_event] ++ exit_event :: []) [] (lit "(pgoptionfiles)") = Some st
    ∧ retcode st = 0
    ∧ error_list st = lit "(pgoptionfiles)"
    ∧ calls st = [waitpid; ptrace_SYSCALL; waitpid].
Proof.
  eexists. split.
  - eapply (tracee_exit_ends_session newline 4096 0 0 4096
              [sigstop_event] exit_event [] [] (lit "(pgoptionfiles)")).
    + evaluate.
    + simpl. lia.
    + simpl. lia.
    + reflexivity.
  - repeat split; evaluate.
Defined.

Lemma trace_number_wraps_to_first_stop_witness :
  tracer_loop newline 4096 0 0 4096 (2 ^ 32 - 1)
    (syscall_event 1 0 0 0 "" :: syscall_event 1 0 0 0 "" :: [exit_event])
    (initial_state [] (lit "(pgoptionfiles)"))
  = Some {| file_names_list := [];
            error_list := lit "(pgoptionfiles)Error: waitpid status: 57f.";
            retcode := -3;
            status := 1407;
            calls := [ptrace_SYSCALL; waitpid; ptrace_GETREGS;
                      waitpid; kill SIGKILL] |}.
Proof.
  apply (trace_number_wraps_to_first_stop newline 4096 0 0 4096
           (syscall_event 1 0 0 0 "") (syscall_event 1 0 0 0 "") [exit_event]
           (initial_state [] (lit "(pgoptionfiles)"))
           {| file_names_list := [];
              error_list := lit "(pgoptionfiles)";
              retcode := 0;
              status := 1407;
              calls := [ptrace_SYSCALL; waitpid; ptrace_GETREGS] |}).
  - evaluate.
  - reflexivity.
  - reflexivity.
  - reflexivity.
Defined.

Lemma error_list_growth_witness :
  ∃ st,
    pgoptionfiles_tracer newline 4096 0 0 4096
      [sigstop_event; syscall_event 257 0 4096 4096 "Error: dlopen() failed"]
      [] (lit "(pgoptionfiles)") = Some st
    ∧ strlen (error_list st) ≤ strlen (lit "(pgoptionfiles)") + Z.max 32 (4096 - 1).
Proof.
  eexists. split; [evaluate|].
  apply (error_list_growth newline 4096 0 0 4096
           [sigstop_event; syscall_event 257 0 4096 4096 "Error: dlopen() failed"]
           [] (lit "(pgoptionfiles)")).
  evaluate.
Defined.
